(** * Frame synchronisation and staged upload of the d3d12-cube renderer

    A shallow embedding of the fence ([gpu_fence]), the barrier helpers
    ([transition], [reverse]), the staged geometry upload ([load_geometry],
    [schedule_object_upload]) and the double-buffered render loop
    ([d3d12_renderer::render]).

    The CPU side is an option-state monad over a [machine] that records every
    graphics API call in a time-stamped log.  The GPU is an oracle [gpu]: the
    value [ID3D12Fence::GetCompletedValue] returns at each instant.  Waiting on
    the fence event advances the CPU clock to the first instant at which the
    completed value reaches the requested target; [fuel] bounds that search, a
    wait that does not end within it makes the call not return ([None]).
    [None] also stands for process termination by a failed GSL contract. *)

From Stdlib Require Import ZArith List Lia Bool Arith Ascii.
Import ListNotations.

Open Scope Z_scope.

(** ** Unsigned machine integers *)

Module U64.
Definition modulus : Z := 2 ^ 64.
Definition wrap (z : Z) : Z := z mod modulus.
Definition add (a b : Z) : Z := wrap (a + b).
Definition sub (a b : Z) : Z := wrap (a - b).
Definition in_range (z : Z) : Prop := 0 <= z < modulus.
End U64.

Module U32.
Definition modulus : Z := 2 ^ 32.
Definition sub (a b : Z) : Z := (a - b) mod modulus.
End U32.

(** ** Resources, resource states and barriers *)

(** The [ID3D12Resource] objects the core touches. *)
Inductive resource :=
| backbuffer (i : nat)
| depth_buffer
| vertex_buffer
| index_buffer
| upload_buffer.

Definition resource_eq_dec (r1 r2 : resource) : {r1 = r2} + {r1 <> r2}.
Proof. decide equality; apply Nat.eq_dec. Defined.

(** [D3D12_RESOURCE_STATES] values from d3d12.h. *)
Definition D3D12_RESOURCE_STATE_COMMON : Z := 0.
Definition D3D12_RESOURCE_STATE_VERTEX_AND_CONSTANT_BUFFER : Z := 1.
Definition D3D12_RESOURCE_STATE_INDEX_BUFFER : Z := 2.
Definition D3D12_RESOURCE_STATE_RENDER_TARGET : Z := 4.
Definition D3D12_RESOURCE_STATE_DEPTH_WRITE : Z := 16.
Definition D3D12_RESOURCE_STATE_COPY_DEST : Z := 1024.
Definition D3D12_RESOURCE_STATE_GENERIC_READ : Z := 2755.

(** [D3D12_RESOURCE_BARRIER_TYPE] and [D3D12_RESOURCE_BARRIER_FLAGS]. *)
Definition D3D12_RESOURCE_BARRIER_TYPE_TRANSITION : Z := 0.
Definition D3D12_RESOURCE_BARRIER_TYPE_ALIASING : Z := 1.
Definition D3D12_RESOURCE_BARRIER_FLAG_NONE : Z := 0.

(** [D3D12_RESOURCE_BARRIER] restricted to its transition member;
    [pResource = None] is the null pointer of a value-initialised barrier. *)
Record D3D12_RESOURCE_BARRIER := mk_barrier {
  barrier_Type : Z;
  barrier_Flags : Z;
  pResource : option resource;
  Subresource : Z;
  StateBefore : Z;
  StateAfter : Z
}.

(** [D3D12_RESOURCE_BARRIER barrier {}] *)
Definition zero_barrier : D3D12_RESOURCE_BARRIER :=
  mk_barrier 0 0 None 0 0 0.

(** Result of a function guarded by GSL [Expects]: a failed contract
    terminates the process. *)
Inductive outcome (A : Type) :=
| Ok (a : A)
| ContractViolation.
Arguments Ok {A} a.
Arguments ContractViolation {A}.

(** [helium::transition] of src/runtime/d3d12_utilities.h (lines 18-27). *)
Definition transition (r : resource) (before after : Z)
  : outcome D3D12_RESOURCE_BARRIER :=
  if Z.eqb before after then ContractViolation
  else Ok {| barrier_Type := D3D12_RESOURCE_BARRIER_TYPE_TRANSITION;
             barrier_Flags := barrier_Flags zero_barrier;
             pResource := Some r;
             Subresource := Subresource zero_barrier;
             StateBefore := before;
             StateAfter := after |}.

(** [helium::transition] of src/runtime/main.cpp (lines 94-102), the
    prototype's copy, which has no [Expects]. *)
Definition transition_prototype (r : resource) (before after : Z)
  : D3D12_RESOURCE_BARRIER :=
  {| barrier_Type := D3D12_RESOURCE_BARRIER_TYPE_TRANSITION;
     barrier_Flags := barrier_Flags zero_barrier;
     pResource := Some r;
     Subresource := Subresource zero_barrier;
     StateBefore := before;
     StateAfter := after |}.

(** [helium::reverse]: swaps the two states of a transition barrier. *)
Definition reverse (b : D3D12_RESOURCE_BARRIER) : outcome D3D12_RESOURCE_BARRIER :=
  if Z.eqb (barrier_Type b) D3D12_RESOURCE_BARRIER_TYPE_TRANSITION
  then Ok {| barrier_Type := barrier_Type b;
             barrier_Flags := barrier_Flags b;
             pResource := pResource b;
             Subresource := Subresource b;
             StateBefore := StateAfter b;
             StateAfter := StateBefore b |}
  else ContractViolation.

(** ** Command lists and the API-call log *)

(** Commands recorded into an [ID3D12GraphicsCommandList].  A recorded
    [ResourceBarrier] holds a copy of the barrier array as it was at the call. *)
Inductive command :=
| SetGraphicsRootSignature
| SetGraphicsRoot32BitConstants (num : Z)
| IASetPrimitiveTopology
| IASetVertexBuffers
| IASetIndexBuffer
| OMSetRenderTargets (rtv : nat)
| RSSetScissorRects
| RSSetViewports
| ResourceBarrier (bs : list D3D12_RESOURCE_BARRIER)
| ClearDepthStencilView
| ClearRenderTargetView (rtv : nat)
| DrawIndexedInstanced (index_count : Z)
| CopyBufferRegion (dst : resource) (dst_offset : nat)
                   (src : resource) (src_offset : nat) (size : nat).

(** Calls the render thread issues.  Command allocators and command lists are
    named by the index of their frame-resource entry.  [Blocked off] marks the
    return of [gpu_fence::block(off)]; [Release r] the destruction of the last
    [com_ptr] to [r]. *)
Inductive call :=
| CreateCommittedResource (r : resource) (width : nat) (upload_heap : bool)
                          (initial_state : Z)
| Map (r : resource)
| CopyToMapped (r : resource) (offset : nat) (bytes : list Z)
| Unmap (r : resource)
| AllocatorReset (a : nat)
| ListReset (l a : nat)
| Record (l : nat) (c : command)
| Close (l : nat)
| ExecuteCommandLists (ls : list nat)
| Signal (value : Z)
| GetCompletedValue (value : Z)
| SetEventOnCompletion (value : Z)
| WaitForSingleObject
| Blocked (offset : Z)
| Present
| Release (r : resource).

(** CPU-visible state: the fence's [m_value], the clock, the log and the
    contents of the buffers written through a mapping. *)
Record machine := mk_machine {
  m_value : Z;
  now : nat;
  log : list (nat * call);
  mem : resource -> list Z
}.

Definition set_m_value (s : machine) (v : Z) : machine :=
  mk_machine v (now s) (log s) (mem s).
Definition set_now (s : machine) (t : nat) : machine :=
  mk_machine (m_value s) t (log s) (mem s).
Definition logged (s : machine) (c : call) : machine :=
  mk_machine (m_value s) (now s) (log s ++ [(now s, c)]) (mem s).
Definition set_mem (s : machine) (r : resource) (bs : list Z) : machine :=
  mk_machine (m_value s) (now s) (log s)
    (fun r' => if resource_eq_dec r r' then bs else mem s r').

(** ** A small state monad with non-return *)

Definition M (A : Type) : Type := machine -> option (A * machine).

Definition ret {A} (a : A) : M A := fun s => Some (a, s).
Definition bind {A B} (m : M A) (f : A -> M B) : M B :=
  fun s => match m s with
           | None => None
           | Some (a, s') => f a s'
           end.
Definition terminate {A} : M A := fun _ => None.

Notation "x <- m ;; f" := (bind m (fun x => f))
  (at level 61, m at next level, right associativity).
Notation "m ;; f" := (bind m (fun _ => f))
  (at level 61, right associativity).

Definition emit (c : call) : M unit := fun s => Some (tt, logged s c).

Definition expect {A} (o : outcome A) : M A :=
  match o with
  | Ok a => ret a
  | ContractViolation => terminate
  end.

(** Bytes of a memory region: [write_bytes m off bs] is [memcpy(m + off, bs)]. *)
Definition write_bytes (m : list Z) (off : nat) (bs : list Z) : list Z :=
  firstn off m ++ bs ++ skipn (off + length bs) m.

Definition read_bytes (m : list Z) (off size : nat) : list Z :=
  firstn size (skipn off m).

(** ** Geometry data *)

(** [vector3]: three [float]s, kept as their 32-bit patterns. *)
Definition vector3 : Type := (Z * Z * Z)%type.

(** [cube::face_descriptor] (src/wavefront_loader.h): three 1-based indices. *)
Definition face_descriptor : Type := (Z * Z * Z)%type.

(** [cube::wavefront]: what [load_wavefront] parsed from the text file. *)
Record wavefront := mk_wavefront {
  positions : list vector3;
  faces : list face_descriptor
}.

(** [helium::wavefront_vertex] / [triangle] / [wavefront_object]
    (src/runtime/shader_loading.h, second header). *)
Record wavefront_vertex := mk_wavefront_vertex {
  position : Z;
  normal : Z;
  uvw : Z
}.
Definition triangle : Type :=
  (wavefront_vertex * wavefront_vertex * wavefront_vertex)%type.
Record wavefront_object := mk_wavefront_object {
  obj_positions : list vector3;
  obj_faces : list triangle
}.

Definition sizeof_vector3 : nat := 12.
Definition sizeof_unsigned_int : nat := 4.

(** Little-endian bytes of a 32-bit value. *)
Definition u32_bytes (x : Z) : list Z :=
  [x mod 256; (x / 256) mod 256; (x / 65536) mod 256; (x / 16777216) mod 256].

Definition vector3_bytes (v : vector3) : list Z :=
  match v with (x, y, z) => u32_bytes x ++ u32_bytes y ++ u32_bytes z end.

(** [gsl::as_bytes(gsl::span{...})] of a vertex and of an index array. *)
Definition vertex_bytes (vs : list vector3) : list Z := flat_map vector3_bytes vs.
Definition index_bytes (is : list Z) : list Z := flat_map u32_bytes is.

(** [std::vector::at(i) = v] on an index known to be in range. *)
Fixpoint list_set (l : list Z) (i : nat) (v : Z) : list Z :=
  match l, i with
  | [], _ => []
  | _ :: l', O => v :: l'
  | x :: l', S i' => x :: list_set l' i' v
  end.

(** The index loop of [load_geometry] (part_006, lines 303-308):
    [indices.at(i * 3 + j) = face.indices.at(j) - 1] in [unsigned int]. *)
Fixpoint fill_indices (fs : list face_descriptor) (i : nat) (indices : list Z)
  : list Z :=
  match fs with
  | [] => indices
  | (a, b, c) :: fs' =>
      let indices1 := list_set indices (i * 3) (U32.sub a 1) in
      let indices2 := list_set indices1 (i * 3 + 1) (U32.sub b 1) in
      let indices3 := list_set indices2 (i * 3 + 2) (U32.sub c 1) in
      fill_indices fs' (S i) indices3
  end.

Definition geometry_indices (object : wavefront) : list Z :=
  fill_indices (faces object) 0 (repeat 0 (length (faces object) * 3)).

(** [load_wavefront_vertices] (part_005, lines 203-215):
    [*(index_iterator++) = vertex.position - 1] for each face vertex. *)
Definition load_wavefront_vertices (object : wavefront_object)
  : list vector3 * list Z :=
  (obj_positions object,
   flat_map (fun f : triangle =>
               match f with
               | (v1, v2, v3) =>
                   [U32.sub (position v1) 1; U32.sub (position v2) 1;
                    U32.sub (position v3) 1]
               end) (obj_faces object)).

(** The index loop of the older [schedule_object_upload] (part_004,
    lines 242-248): [*(index_iterator++) = vertex.position]. *)
Definition prototype_upload_indices (object : wavefront_object) : list Z :=
  flat_map (fun f : triangle =>
              match f with
              | (v1, v2, v3) => [position v1; position v2; position v3]
              end) (obj_faces object).

(** [cube::geometry_buffers], reduced to the sizes the views carry. *)
Record geometry_buffers := mk_geometry_buffers {
  vertices_size_in_bytes : Z;
  indices_size : Z
}.

(** [helium::object_buffers] of part_005. *)
Record object_buffers := mk_object_buffers {
  object_vertices_size : Z;
  object_indices_size : Z;
  index_count : Z
}.

(** ** Operations of the render thread *)

Section Machine.

(** [gpu t]: the fence value [GetCompletedValue] returns at instant [t]. *)
Variable gpu : nat -> Z.
(** Bound on the instants a single wait may take. *)
Variable fuel : nat.

(** [WaitForSingleObject] on the event armed by [SetEventOnCompletion(target)]:
    the first instant from [t] on at which the fence has reached [target]. *)
Fixpoint wait_until (target : Z) (t : nat) (n : nat) : option nat :=
  if Z.leb target (gpu t) then Some t
  else match n with
       | O => None
       | S n' => wait_until target (S t) n'
       end.

(** The branch [gpu_fence::block(offset)] takes
    (src/runtime/d3d12_utilities.h, lines 81-87):
    [if (m_fence->GetCompletedValue() < m_value - offset)] in [uint64_t],
    then [SetEventOnCompletion(m_value, ...)].  [None]: return at once;
    [Some v]: wait for the fence to reach [v]. *)
Definition block_path (value offset completed : Z) : option Z :=
  if Z.ltb completed (U64.sub value offset) then Some value else None.

(** [gpu_fence::block(offset)]. *)
Definition block (offset : Z) : M unit := fun s =>
  let c := gpu (now s) in
  let s1 := logged s (GetCompletedValue c) in
  match block_path (m_value s) offset c with
  | None => Some (tt, logged s1 (Blocked offset))
  | Some target =>
      let s2 := logged s1 (SetEventOnCompletion target) in
      match wait_until target (now s) fuel with
      | None => None
      | Some t =>
          Some (tt, logged (logged (set_now s2 t) WaitForSingleObject)
                           (Blocked offset))
      end
  end.

(** [gpu_fence::bump(queue)]: [queue.Signal(m_fence.get(), ++m_value)];
    the function returns [void]. *)
Definition bump : M unit := fun s =>
  let v := U64.add (m_value s) 1 in
  Some (tt, logged (set_m_value s v) (Signal v)).

(** [n] successive [bump] calls of a caller on the same queue. *)
Fixpoint bumps (n : nat) : M unit :=
  match n with
  | O => ret tt
  | S k => bumps k ;; bump
  end.

(** [CreateCommittedResource]: a buffer of [width] bytes. *)
Definition create_committed (r : resource) (width : nat) (upload_heap : bool)
    (state : Z) : M unit := fun s =>
  Some (tt, set_mem (logged s (CreateCommittedResource r width upload_heap state))
                    r (repeat 0 width)).

(** [memcpy] / [std::copy] into the mapped memory of [r] at byte [off]. *)
Definition copy_to_mapped (r : resource) (off : nat) (bs : list Z) : M unit :=
  fun s => Some (tt, set_mem (logged s (CopyToMapped r off bs)) r
                             (write_bytes (mem s r) off bs)).

Definition record (l : nat) (c : command) : M unit := emit (Record l c).

(** [gsl::narrow<unsigned int>]: throws (fatal) when the value does not fit. *)
Definition narrow_u32 (n : nat) : M Z :=
  if Z.ltb (Z.of_nat n) U32.modulus then ret (Z.of_nat n) else terminate.

(** [load_geometry] (src/unnamed/part_006, lines 292-345).  The frame-resource
    entry it is given is entry 0 (list 0, allocator 0). *)
Definition load_geometry (object : wavefront) : M geometry_buffers :=
  let vertices := positions object in
  let indices := geometry_indices object in
  let indices_bytes := (length indices * sizeof_unsigned_int)%nat in
  let vertices_bytes := (length vertices * sizeof_vector3)%nat in
  create_committed upload_buffer (indices_bytes + vertices_bytes) true
    D3D12_RESOURCE_STATE_GENERIC_READ ;;
  create_committed vertex_buffer vertices_bytes false
    D3D12_RESOURCE_STATE_COPY_DEST ;;
  vsize <- narrow_u32 vertices_bytes ;;
  _ <- narrow_u32 sizeof_vector3 ;;
  isize <- narrow_u32 (length indices) ;;
  create_committed index_buffer indices_bytes false
    D3D12_RESOURCE_STATE_COPY_DEST ;;
  emit (Map upload_buffer) ;;
  copy_to_mapped upload_buffer 0 (index_bytes indices) ;;
  copy_to_mapped upload_buffer indices_bytes (vertex_bytes vertices) ;;
  emit (Unmap upload_buffer) ;;
  emit (AllocatorReset 0) ;;
  emit (ListReset 0 0) ;;
  record 0 (CopyBufferRegion index_buffer 0 upload_buffer 0 indices_bytes) ;;
  record 0 (CopyBufferRegion vertex_buffer 0 upload_buffer indices_bytes
                             vertices_bytes) ;;
  emit (Close 0) ;;
  emit (ExecuteCommandLists [0%nat]) ;;
  bump ;;
  block 0 ;;
  emit (Release upload_buffer) ;;
  ret (mk_geometry_buffers vsize isize).

(** [schedule_object_upload] (src/unnamed/part_005, lines 220-336).  Its
    [gpu_fence::block()] tests [GetCompletedValue() < m_value], which is
    [block 0] for an in-range counter; its [transition] has no [Expects]. *)
Definition schedule_object_upload (object : wavefront_object) : M object_buffers :=
  let cube := load_wavefront_vertices object in
  let vertices := fst cube in
  let indices := snd cube in
  let vertex_width := (length vertices * sizeof_vector3)%nat in
  let index_width := (length indices * sizeof_unsigned_int)%nat in
  create_committed vertex_buffer vertex_width false D3D12_RESOURCE_STATE_COPY_DEST ;;
  create_committed index_buffer index_width false D3D12_RESOURCE_STATE_COPY_DEST ;;
  create_committed upload_buffer (vertex_width + index_width) true
    D3D12_RESOURCE_STATE_GENERIC_READ ;;
  emit (Map upload_buffer) ;;
  copy_to_mapped upload_buffer 0 (vertex_bytes vertices) ;;
  copy_to_mapped upload_buffer vertex_width (index_bytes indices) ;;
  emit (Unmap upload_buffer) ;;
  emit (ListReset 0 0) ;;
  record 0 (CopyBufferRegion vertex_buffer 0 upload_buffer 0 vertex_width) ;;
  record 0 (CopyBufferRegion index_buffer 0 upload_buffer vertex_width index_width) ;;
  record 0 (ResourceBarrier
              [transition_prototype vertex_buffer D3D12_RESOURCE_STATE_COPY_DEST
                 D3D12_RESOURCE_STATE_VERTEX_AND_CONSTANT_BUFFER;
               transition_prototype index_buffer D3D12_RESOURCE_STATE_COPY_DEST
                 D3D12_RESOURCE_STATE_INDEX_BUFFER]) ;;
  emit (Close 0) ;;
  emit (ExecuteCommandLists [0%nat]) ;;
  bump ;;
  vsize <- narrow_u32 vertex_width ;;
  isize <- narrow_u32 index_width ;;
  block 0 ;;
  count <- narrow_u32 (length indices) ;;
  emit (Release upload_buffer) ;;
  ret (mk_object_buffers vsize isize count).

(** Modelled from the spec: the [barrier(list, barriers)] helper that
    [record_commands] calls is not under src/.  Following the spec ("issues
    the entry barrier ... issues the exit barrier"), it records one
    [ResourceBarrier] command carrying the array's barriers as they are now. *)
Definition barrier (l : nat) (bs : list D3D12_RESOURCE_BARRIER) : M unit :=
  record l (ResourceBarrier bs).

(** [record_commands] (src/unnamed/part_006, lines 374-404) for frame-resource
    entry [i]: list [i], allocator [i], back buffer [i], render-target view [i]. *)
Definition record_commands (i : nat) (index_count : Z) : M unit :=
  emit (ListReset i i) ;;
  record i SetGraphicsRootSignature ;;
  record i (SetGraphicsRoot32BitConstants (4 * 4 * 2)) ;;
  record i IASetPrimitiveTopology ;;
  record i IASetVertexBuffers ;;
  record i IASetIndexBuffer ;;
  record i (OMSetRenderTargets i) ;;
  record i RSSetScissorRects ;;
  record i RSSetViewports ;;
  b <- expect (transition (backbuffer i) D3D12_RESOURCE_STATE_COMMON
                 D3D12_RESOURCE_STATE_RENDER_TARGET) ;;
  barrier i [b] ;;
  record i ClearDepthStencilView ;;
  record i (ClearRenderTargetView i) ;;
  record i (DrawIndexedInstanced index_count) ;;
  b' <- expect (reverse b) ;;
  barrier i [b'] ;;
  emit (Close i).

(** [d3d12_renderer::render] (src/unnamed/part_006, lines 448-461); [index] is
    what [GetCurrentBackBufferIndex] returns, [m_frame_resources.at(index)]
    throws outside [0, 2). *)
Definition render (index : nat) (index_count : Z) : M unit :=
  block 1 ;;
  if Nat.ltb index 2 then
    emit (AllocatorReset index) ;;
    record_commands index index_count ;;
    emit (ExecuteCommandLists [index]) ;;
    emit Present ;;
    bump
  else terminate.

(** The first [n] iterations of the loop of [execute_game_thread]; the swap
    chain hands out the back-buffer index [swap_index k] at iteration [k]. *)
Fixpoint render_loop (swap_index : nat -> nat) (index_count : Z) (n : nat)
  : M unit :=
  match n with
  | O => ret tt
  | S k => render_loop swap_index index_count k ;;
           render (swap_index k) index_count
  end.

(** Construction of the renderer (its constructor runs [load_geometry] on
    entry 0) followed by [n] frames. *)
Definition run_frames (object : wavefront) (swap_index : nat -> nat) (n : nat)
  : M unit :=
  g <- load_geometry object ;;
  render_loop swap_index (indices_size g) n.

End Machine.

(** The render thread's state when the renderer is created: the fence counter
    starts at 0. *)
Definition initial_machine : machine := mk_machine 0 0 [] (fun _ => []).

(** ** Reading the log *)

(** Which allocator each list was last reset with, the allocators whose
    submitted work has no fence signal after it yet, and for each allocator
    the fence value signalled after its last submission (its ticket). *)
Record tracker := mk_tracker {
  bound : nat -> nat;
  pending : list nat;
  ticket : nat -> option Z
}.

Definition track (tr : tracker) (e : nat * call) : tracker :=
  match snd e with
  | ListReset l a =>
      mk_tracker (fun l' => if Nat.eqb l l' then a else bound tr l')
                 (pending tr) (ticket tr)
  | ExecuteCommandLists ls =>
      mk_tracker (bound tr) (map (bound tr) ls ++ pending tr) (ticket tr)
  | Signal v =>
      mk_tracker (bound tr) []
                 (fun a => if existsb (Nat.eqb a) (pending tr) then Some v
                           else ticket tr a)
  | _ => tr
  end.

Definition tracker0 : tracker := mk_tracker (fun l => l) [] (fun _ => None).

Definition submissions (lg : list (nat * call)) : tracker :=
  fold_left track lg tracker0.

(** Every submission recorded through allocator [a] in [lg] has retired at
    instant [t]: it has been followed by a signal, and the fence has reached
    that signal's value. *)
Definition allocator_retired (gpu : nat -> Z) (lg : list (nat * call)) (a : nat)
    (t : nat) : Prop :=
  ~ In a (pending (submissions lg)) /\
  forall v, ticket (submissions lg) a = Some v -> v <= gpu t.

Definition is_execute (e : nat * call) : bool :=
  match snd e with ExecuteCommandLists _ => true | _ => false end.

(** The commands of list [l] since its last [Reset]. *)
Fixpoint recorded (l : nat) (lg : list (nat * call)) (acc : list command)
  : list command :=
  match lg with
  | [] => acc
  | (_, ListReset l' _) :: r => recorded l r (if Nat.eqb l l' then [] else acc)
  | (_, Record l' c) :: r => recorded l r (if Nat.eqb l l' then acc ++ [c] else acc)
  | _ :: r => recorded l r acc
  end.

(** The GPU executing the copy commands of a list on buffer contents. *)
Definition gpu_copy (m : resource -> list Z) (c : command) : resource -> list Z :=
  match c with
  | CopyBufferRegion dst doff src soff size =>
      fun r => if resource_eq_dec dst r
               then write_bytes (m dst) doff (read_bytes (m src) soff size)
               else m r
  | _ => m
  end.

Definition gpu_execute (cmds : list command) (m : resource -> list Z)
  : resource -> list Z :=
  fold_left gpu_copy cmds m.

(** Transition barriers of a command list naming resource [r] that move it
    from [before] to [after]. *)
Definition count_transitions (r : resource) (before after : Z)
    (cmds : list command) : nat :=
  length (filter (fun b => Z.eqb (barrier_Type b) D3D12_RESOURCE_BARRIER_TYPE_TRANSITION
                        && match pResource b with
                           | Some r' => if resource_eq_dec r r' then true else false
                           | None => false
                           end
                        && Z.eqb (StateBefore b) before && Z.eqb (StateAfter b) after)
     (flat_map (fun c => match c with ResourceBarrier bs => bs | _ => [] end) cmds)).

(** The state the command list declares for [r] after its barriers, starting
    from [st]; [None] when a barrier's before-state disagrees. *)
Fixpoint declared_state (r : resource) (st : Z) (cmds : list command) : option Z :=
  match cmds with
  | [] => Some st
  | ResourceBarrier bs :: cmds' =>
      let fix go (st : Z) (bs : list D3D12_RESOURCE_BARRIER) : option Z :=
        match bs with
        | [] => Some st
        | b :: bs' =>
            match pResource b with
            | Some r' =>
                if resource_eq_dec r r' then
                  if Z.eqb (StateBefore b) st then go (StateAfter b) bs' else None
                else go st bs'
            | None => go st bs'
            end
        end in
      match go st bs with
      | Some st' => declared_state r st' cmds'
      | None => None
      end
  | _ :: cmds' => declared_state r st cmds'
  end.

Definition has_barrier (cmds : list command) : bool :=
  existsb (fun c => match c with ResourceBarrier _ => true | _ => false end) cmds.

(** The calls [gpu_fence::block] makes while it waits. *)
Definition fence_wait_call (c : call) : bool :=
  match c with
  | GetCompletedValue _ | SetEventOnCompletion _ | WaitForSingleObject => true
  | _ => false
  end.

Definition is_allocator_reset (e : nat * call) : bool :=
  match snd e with AllocatorReset _ => true | _ => false end.

(** Every [AllocatorReset] in [lg] happens once the allocator's earlier
    submissions have retired, and, unless nothing had been submitted yet,
    right after a [block(1)] returned at the same instant. *)
Definition resets_confirmed (gpu : nat -> Z) (lg : list (nat * call)) : Prop :=
  forall pre t a post, lg = pre ++ (t, AllocatorReset a) :: post ->
    allocator_retired gpu pre a t /\
    (forallb (fun e => negb (is_execute e)) pre = true \/
     exists pre', pre = pre' ++ [(t, Blocked 1)]).

(** The render thread after the construction and [k] frames: the counter is
    [k + 1], nothing is submitted without a signal, every list is bound to
    its own allocator, and each ticket has been reached, is at most [k], or
    is the one of the previous frame's allocator. *)
Definition frame_invariant (gpu : nat -> Z) (swap_index : nat -> nat) (k : nat)
    (s : machine) : Prop :=
  let tr := submissions (log s) in
  m_value s = Z.of_nat k + 1 /\ pending tr = [] /\ (forall l, bound tr l = l) /\
  forall a v, ticket tr a = Some v ->
    v <= gpu (now s) \/ v <= Z.of_nat k \/
    exists j, k = S j /\ a = swap_index j /\ v = Z.of_nat k + 1.

(** ** Sample inputs *)

(** The corners of a cube (8 positions) and its 12 triangles, 1-based. *)
Definition cube_positions : list vector3 :=
  [(0, 0, 0); (1, 0, 0); (0, 1, 0); (1, 1, 0);
   (0, 0, 1); (1, 0, 1); (0, 1, 1); (1, 1, 1)].
Definition cube_faces : list face_descriptor :=
  [(1, 2, 3); (2, 4, 3); (5, 7, 6); (6, 7, 8); (1, 5, 2); (2, 5, 6);
   (3, 4, 7); (4, 8, 7); (1, 3, 5); (3, 7, 5); (2, 6, 4); (4, 6, 8)].
Definition cube : wavefront := mk_wavefront cube_positions cube_faces.

(** A GPU that finishes each signal one instant after it is asked about. *)
Definition lagging_gpu (t : nat) : Z := Z.of_nat t.

(** The cube as [load_wavefront_vertices] receives it: each face vertex
    carries its 1-based position index. *)
Definition cube_object : wavefront_object :=
  mk_wavefront_object cube_positions
    (map (fun f : face_descriptor =>
            match f with
            | (a, b, c) => (mk_wavefront_vertex a 0 0, mk_wavefront_vertex b 0 0,
                            mk_wavefront_vertex c 0 0)
            end) cube_faces).

(** The back-buffer index a two-buffer flip-model swap chain hands out at
    frame [k]: 0, 1, 0, 1, ... *)
Definition flip_index (k : nat) : nat := if Nat.even k then 0 else 1.

(** ** Descriptor handles *)

(** [helium::offset] (src/runtime/d3d12_utilities.h, lines 35-39):
    [handle.ptr + index * size] in [std::size_t] arithmetic. *)
Definition offset (ptr size index : Z) : Z :=
  U64.add ptr (U64.wrap (index * size)).

(** ** The Wavefront OBJ loaders *)

(** A file's bytes, [std::vector<char>], are a list of characters.  An
    iterator into them is the suffix that starts at it; two iterators into the
    same content are equal when their suffixes have the same length. *)

Definition newline : ascii := "010"%char.
Definition space : ascii := " "%char.
Definition slash : ascii := "/"%char.
Definition carriage_return : ascii := "013"%char.

(** [std::string_view::operator==]. *)
Fixpoint string_view_eqb (a b : list ascii) : bool :=
  match a, b with
  | [], [] => true
  | x :: a', y :: b' => Ascii.eqb x y && string_view_eqb a' b'
  | _, _ => false
  end.

Definition is_digit (c : ascii) : bool :=
  Nat.leb 48 (nat_of_ascii c) && Nat.leb (nat_of_ascii c) 57.

Definition digit_value (c : ascii) : Z := Z.of_nat (nat_of_ascii c) - 48.

(** The longest run of decimal digits at the front of a string. *)
Fixpoint digit_run (s : list ascii) : list ascii :=
  match s with
  | c :: s' => if is_digit c then c :: digit_run s' else []
  | [] => []
  end.

(** [std::from_chars] into an [unsigned int], base 10: it matches the
    longest run of decimal digits (no sign, no white space).  The value is
    assigned only when the run is not empty and fits in 32 bits ([None]:
    left unassigned); the second component is [ptr - first], the length of
    the run. *)
Definition from_chars_uint (s : list ascii) : option Z * nat :=
  match digit_run s with
  | [] => (None, 0%nat)
  | ds =>
      let v := fold_left (fun acc c => acc * 10 + digit_value c) ds 0 in
      (if v <? U32.modulus then Some v else None, length ds)
  end.

(** src/runtime/wavefront_loader.cpp, the loader of [cube::wavefront]. *)
Module WavefrontLoader.
Section Loader.

(** [std::from_chars] into a [float]: the bit pattern it assigns, if any, and
    the number of characters it matched. *)
Variable from_chars_float : list ascii -> option Z * nat.

(** The two loops of [get_next<delimiter>] (lines 18-23). *)
Fixpoint skip_delimiters (d : ascii) (s : list ascii) : list ascii :=
  match s with
  | c :: s' => if Ascii.eqb c d then skip_delimiters d s' else s
  | [] => []
  end.

Fixpoint skip_token (d : ascii) (s : list ascii) : list ascii :=
  match s with
  | c :: s' => if Ascii.eqb c d then s else skip_token d s'
  | [] => []
  end.

(** [get_next<delimiter>(iterator, last)] (lines 15-31): the token and the
    advanced iterator. *)
Definition get_next (d : ascii) (iterator : list ascii) : list ascii * list ascii :=
  let first_char := skip_delimiters d iterator in
  let last_char := skip_token d first_char in
  if Nat.eqb (length first_char) (length last_char) then ([], last_char)
  else (firstn (length first_char - length last_char) first_char, last_char).

(** [convert<type>] (lines 33-39): [type value {}] is 0, and it is left so
    when [from_chars] assigns nothing. *)
Definition convert (from_chars : list ascii -> option Z * nat) (s : list ascii) : Z :=
  match fst (from_chars s) with
  | Some v => v
  | None => 0
  end.

(** The body of the loop of [load_wavefront] (lines 61-76) on one line. *)
Definition read_line (line : list ascii) (w : wavefront) : wavefront :=
  let (type, it) := get_next space line in
  if string_view_eqb type ["v"%char] then
    let (x, it1) := get_next space it in
    let (y, it2) := get_next space it1 in
    let (z, _) := get_next space it2 in
    mk_wavefront (positions w ++ [(convert from_chars_float x,
                                   convert from_chars_float y,
                                   convert from_chars_float z)]) (faces w)
  else if string_view_eqb type ["f"%char] then
    let (a, it1) := get_next space it in
    let (b, it2) := get_next space it1 in
    let (c, _) := get_next space it2 in
    mk_wavefront (positions w) (faces w ++ [(convert from_chars_uint a,
                                             convert from_chars_uint b,
                                             convert from_chars_uint c)])
  else w.

(** The [while (true)] loop (lines 56-77); every round consumes at least one
    character, so [fuel] beyond the content's length is never exhausted. *)
Fixpoint load_lines (fuel : nat) (content : list ascii) (w : wavefront) : wavefront :=
  match fuel with
  | O => w
  | S fuel' =>
      let (line, content') := get_next newline content in
      match line with
      | [] => w
      | _ => load_lines fuel' content' (read_line line w)
      end
  end.

(** [helium::load_wavefront] (lines 43-80) on the file's content. *)
Definition load_wavefront (content : list ascii) : wavefront :=
  load_lines (S (length content)) content (mk_wavefront [] []).

End Loader.
End WavefrontLoader.

(** src/runtime/wavefront_object_loader.cpp, the loader of
    [helium::wavefront_object]. *)
Module WavefrontObjectLoader.

(** [helium::wavefront_object] with all four of its members (the
    [wavefront_object] above keeps the two the upload reads). *)
Record wavefront_object := mk_wavefront_object {
  positions : list vector3;
  normals : list vector3;
  uvws : list vector3;
  faces : list triangle
}.

Section Loader.

(** [std::from_chars] into a [float], as in [WavefrontLoader]. *)
Variable from_chars_float : list ascii -> option Z * nat.

(** [eat_delimiters<delimiter>] (lines 18-23). *)
Fixpoint eat_delimiters (d : ascii) (iterator : list ascii) : list ascii :=
  match iterator with
  | c :: s => if Ascii.eqb c d then eat_delimiters d s else iterator
  | [] => []
  end.

(** [advance_to_delimiter<delimiter>] (lines 25-30). *)
Fixpoint advance_to_delimiter (d : ascii) (iterator : list ascii) : list ascii :=
  match iterator with
  | c :: s => if Ascii.eqb c d then iterator else advance_to_delimiter d s
  | [] => []
  end.

(** [get_next<delimiter>] (lines 32-44): the token and the advanced
    iterator. *)
Definition get_next (d : ascii) (iterator : list ascii) : list ascii * list ascii :=
  let range_first := eat_delimiters d iterator in
  match range_first with
  | [] => ([], range_first)
  | _ =>
      let range_last := advance_to_delimiter d range_first in
      (firstn (length range_first - length range_last) range_first, range_last)
  end.

(** [convert<type>] (lines 46-57): [Ensures(result.ptr == last)] terminates
    ([None]) unless [from_chars] matched the whole string; the value is 0
    when [from_chars] assigns nothing. *)
Definition convert (from_chars : list ascii -> option Z * nat) (s : list ascii)
  : option Z :=
  let (value, consumed) := from_chars s in
  if Nat.eqb consumed (length s)
  then Some (match value with Some v => v | None => 0 end)
  else None.

(** [unpack_face_vertex] (lines 59-70): [vertex/texture/normal], returned as
    [{vertex, normal, texture}]; a fourth field terminates. *)
Definition unpack_face_vertex (s : list ascii) : option wavefront_vertex :=
  let (t1, it1) := get_next slash s in
  match convert from_chars_uint t1 with
  | None => None
  | Some vertex =>
      let (t2, it2) := get_next slash it1 in
      match convert from_chars_uint t2 with
      | None => None
      | Some texture =>
          let (t3, it3) := get_next slash it2 in
          match convert from_chars_uint t3 with
          | None => None
          | Some normal =>
              match fst (get_next slash it3) with
              | [] => Some (mk_wavefront_vertex vertex normal texture)
              | _ => None
              end
          end
      end
  end.

(** Three [float]s and the check that nothing follows them, as the [v],
    [vn] and [vt] branches read them (lines 95-99, 104-108, 113-118). *)
Definition read_vector3 (it : list ascii) : option vector3 :=
  let (tx, it1) := get_next space it in
  match convert from_chars_float tx with
  | None => None
  | Some x =>
      let (ty, it2) := get_next space it1 in
      match convert from_chars_float ty with
      | None => None
      | Some y =>
          let (tz, it3) := get_next space it2 in
          match convert from_chars_float tz with
          | None => None
          | Some z =>
              match fst (get_next space it3) with
              | [] => Some (x, y, z)
              | _ => None
              end
          end
      end
  end.

(** The [f] branch (lines 122-132): three face vertices and nothing after
    them. *)
Definition read_triangle (it : list ascii) : option triangle :=
  let (ta, it1) := get_next space it in
  match unpack_face_vertex ta with
  | None => None
  | Some a =>
      let (tb, it2) := get_next space it1 in
      match unpack_face_vertex tb with
      | None => None
      | Some b =>
          let (tc, it3) := get_next space it2 in
          match unpack_face_vertex tc with
          | None => None
          | Some c =>
              match fst (get_next space it3) with
              | [] => Some (a, b, c)
              | _ => None
              end
          end
      end
  end.

(** The body of the loop of [load_wavefront_object] (lines 91-132) on one
    line; [None] is [std::terminate]. *)
Definition read_line (line : list ascii) (o : wavefront_object)
  : option wavefront_object :=
  let (command, it) := get_next space line in
  if string_view_eqb command ["v"%char] then
    match read_vector3 it with
    | Some v => Some (mk_wavefront_object (positions o ++ [v]) (normals o) (uvws o) (faces o))
    | None => None
    end
  else if string_view_eqb command ["v"%char; "n"%char] then
    match read_vector3 it with
    | Some v => Some (mk_wavefront_object (positions o) (normals o ++ [v]) (uvws o) (faces o))
    | None => None
    end
  else if string_view_eqb command ["v"%char; "t"%char] then
    match read_vector3 it with
    | Some v => Some (mk_wavefront_object (positions o) (normals o) (uvws o ++ [v]) (faces o))
    | None => None
    end
  else if string_view_eqb command ["f"%char] then
    match read_triangle it with
    | Some t => Some (mk_wavefront_object (positions o) (normals o) (uvws o) (faces o ++ [t]))
    | None => None
    end
  else Some o.

(** The [while (content_iterator != content_last)] loop (lines 89-133); every
    round consumes at least one character. *)
Fixpoint load_lines (fuel : nat) (content : list ascii) (o : wavefront_object)
  : option wavefront_object :=
  match fuel with
  | O => Some o
  | S fuel' =>
      match content with
      | [] => Some o
      | _ =>
          let (line, content') := get_next newline content in
          match read_line line o with
          | Some o' => load_lines fuel' content' o'
          | None => None
          end
      end
  end.

(** [helium::load_wavefront_object] (lines 74-136) on the file's content. *)
Definition load_wavefront_object (content : list ascii) : option wavefront_object :=
  load_lines (S (length content)) content (mk_wavefront_object [] [] [] []).

End Loader.
End WavefrontObjectLoader.

(** ** Text of OBJ files, to state what the loaders read back *)

(** The decimal digits of a natural number, least significant first. *)
Fixpoint digits_rev (fuel : nat) (n : Z) : list ascii :=
  match fuel with
  | O => []
  | S fuel' =>
      ascii_of_nat (48 + Z.to_nat (n mod 10))
        :: (if n <? 10 then [] else digits_rev fuel' (n / 10))
  end.

Definition decimal_string (n : Z) : list ascii :=
  rev (digits_rev (S (Z.to_nat (Z.log2 n))) n).

(** A face vertex written [position/uvw/normal], and a face line. *)
Definition vertex_text (v : wavefront_vertex) : list ascii :=
  decimal_string (position v) ++ slash :: decimal_string (uvw v) ++
  slash :: decimal_string (normal v).

Definition face_text (t : triangle) : list ascii :=
  match t with
  | (a, b, c) =>
      ["f"%char] ++ space :: vertex_text a ++ space :: vertex_text b ++
      space :: vertex_text c
  end.

(** The faces of an object as lines of an OBJ file, ended by [eol]. *)
Definition faces_text (eol : list ascii) (ts : list triangle) : list ascii :=
  flat_map (fun t => face_text t ++ eol) ts.

(** A [cube::face_descriptor] written [f a b c]. *)
Definition face_descriptor_text (f : face_descriptor) : list ascii :=
  match f with
  | (a, b, c) =>
      ["f"%char] ++ space :: decimal_string a ++ space :: decimal_string b ++
      space :: decimal_string c
  end.

Definition face_descriptors_text (eol : list ascii) (fs : list face_descriptor)
  : list ascii :=
  flat_map (fun f => face_descriptor_text f ++ eol) fs.

Definition vertex_in_range (v : wavefront_vertex) : bool :=
  (0 <=? position v) && (position v <? U32.modulus) &&
  (0 <=? normal v) && (normal v <? U32.modulus) &&
  (0 <=? uvw v) && (uvw v <? U32.modulus).

Definition triangle_in_range (t : triangle) : bool :=
  match t with (a, b, c) => vertex_in_range a && vertex_in_range b && vertex_in_range c end.

Definition face_in_range (f : face_descriptor) : bool :=
  match f with
  | (a, b, c) => (0 <=? a) && (a <? U32.modulus) && (0 <=? b) && (b <? U32.modulus) &&
                 (0 <=? c) && (c <? U32.modulus)
  end.

(** ** Helpers for the loader properties *)

(** One step of the decimal accumulation of [from_chars]. *)
Definition decimal_step (acc : Z) (c : ascii) : Z := acc * 10 + digit_value c.

(** [d] does not occur in [s]. *)
Definition no_char (d : ascii) (s : list ascii) : bool :=
  forallb (fun c => negb (Ascii.eqb c d)) s.

(** What the object loader makes of an [f a b c] line's face. *)
Definition position_only (f : face_descriptor) : triangle :=
  match f with
  | (a, b, c) => (mk_wavefront_vertex a 0 0, mk_wavefront_vertex b 0 0, mk_wavefront_vertex c 0 0)
  end.

(** Sample inputs: two faces of a quad, a float parser that assigns nothing,
    a comment line, and a float parser that reads a token as its length. *)
Definition sample_triangles : list triangle :=
  [(mk_wavefront_vertex 1 1 1, mk_wavefront_vertex 2 1 2, mk_wavefront_vertex 3 1 3);
   (mk_wavefront_vertex 3 2 3, mk_wavefront_vertex 4 2 4, mk_wavefront_vertex 1 2 1)].

Definition sample_faces : list face_descriptor := [(1, 2, 3); (3, 4, 1)].

Definition no_float (s : list ascii) : option Z * nat := (None, 0%nat).

Definition comment_line : list ascii := ["#"%char; space; "c"%char; "u"%char; "b"%char; "e"%char].

Definition length_float (s : list ascii) : option Z * nat := (Some (Z.of_nat (length s)), length s).

(** * Properties *)

(** ** Fence, byte and monad lemmas *)

Lemma wait_until_spec : forall gpu target n t t',
  wait_until gpu target t n = Some t' -> (t <= t')%nat /\ target <= gpu t'.
Proof.
  intros gpu target n; induction n as [|n IH]; intros t t' H; cbn in H;
    destruct (Z.leb_spec target (gpu t)).
  - inversion H; subst; split; [lia | assumption].
  - discriminate.
  - inversion H; subst; split; [lia | assumption].
  - apply IH in H as [H1 H2]; split; [lia | assumption].
Qed.

Lemma block_spec : forall gpu fuel off s u s',
  block gpu fuel off s = Some (u, s') ->
  m_value s' = m_value s /\ mem s' = mem s /\ (now s <= now s')%nat /\
  (exists evs, log s' = log s ++ evs ++ [(now s', Blocked off)] /\
               forallb (fun e => fence_wait_call (snd e)) evs = true) /\
  (U64.sub (m_value s) off <= gpu (now s') \/ m_value s <= gpu (now s')).
Proof.
  intros gpu fuel off s u s' H. unfold block, block_path in H.
  destruct (Z.ltb_spec (gpu (now s)) (U64.sub (m_value s) off)).
  - destruct (wait_until gpu (m_value s) (now s) fuel) as [t|] eqn:Hw; [|discriminate].
    apply wait_until_spec in Hw as [Ht Hg].
    inversion H; subst; cbn.
    split; [reflexivity|]. split; [reflexivity|]. split; [exact Ht|]. split.
    + exists [(now s, GetCompletedValue (gpu (now s)));
              (now s, SetEventOnCompletion (m_value s)); (t, WaitForSingleObject)].
      split; [now rewrite <- !app_assoc | reflexivity].
    + right; exact Hg.
  - inversion H; subst; cbn.
    split; [reflexivity|]. split; [reflexivity|]. split; [lia|]. split.
    + exists [(now s, GetCompletedValue (gpu (now s)))].
      split; [now rewrite <- !app_assoc | reflexivity].
    + left; lia.
Qed.

Lemma u64_add_in_range : forall a b, U64.in_range (U64.add a b).
Proof. intros; unfold U64.in_range, U64.add, U64.wrap, U64.modulus. apply Z.mod_pos_bound; lia. Qed.

Lemma u64_sub_0 : forall a, U64.in_range a -> U64.sub a 0 = a.
Proof. intros a H; unfold U64.sub, U64.wrap; rewrite Z.sub_0_r; apply Z.mod_small; exact H. Qed.

Lemma length_index_bytes : forall l,
  length (index_bytes l) = (length l * sizeof_unsigned_int)%nat.
Proof.
  unfold index_bytes, sizeof_unsigned_int.
  induction l as [|x l IH]; cbn [flat_map length]; [reflexivity|].
  rewrite length_app, IH. cbn. lia.
Qed.

Lemma length_vertex_bytes : forall l,
  length (vertex_bytes l) = (length l * sizeof_vector3)%nat.
Proof.
  unfold vertex_bytes, sizeof_vector3.
  induction l as [|[[x y] z] l IH]; cbn [flat_map length]; [reflexivity|].
  rewrite length_app, IH. cbn. lia.
Qed.

Lemma skipn_repeat_add : forall {A} (x : A) n m, skipn n (repeat x (n + m)) = repeat x m.
Proof. intros A x n; induction n as [|n IH]; intros m; cbn; auto. Qed.

Lemma write_bytes_fill : forall a b x,
  write_bytes (a ++ repeat x (length b)) (length a) b = a ++ b.
Proof.
  intros a b x; unfold write_bytes.
  rewrite firstn_app, Nat.sub_diag, firstn_all, app_nil_r.
  rewrite skipn_app, skipn_all2 by lia.
  replace (length a + length b - length a)%nat with (length b) by lia.
  rewrite <- (Nat.add_0_r (length b)) at 2. rewrite skipn_repeat_add.
  cbn. now rewrite !app_nil_r.
Qed.

Lemma read_bytes_app : forall a b,
  read_bytes (a ++ b) 0 (length a) = a /\ read_bytes (a ++ b) (length a) (length b) = b.
Proof.
  intros a b; unfold read_bytes; split.
  - cbn. rewrite firstn_app, Nat.sub_diag, firstn_all. cbn. apply app_nil_r.
  - rewrite skipn_app, skipn_all, Nat.sub_diag. cbn. apply firstn_all.
Qed.

Lemma resource_dec_same : forall {A} r (x y : A),
  (if resource_eq_dec r r then x else y) = x.
Proof. intros A r x y; destruct (resource_eq_dec r r); congruence. Qed.

Lemma resource_dec_diff : forall {A} r1 r2 (x y : A),
  r1 <> r2 -> (if resource_eq_dec r1 r2 then x else y) = y.
Proof. intros A r1 r2 x y H; destruct (resource_eq_dec r1 r2); congruence. Qed.

Ltac eval_mem :=
  cbv beta; rewrite ?resource_dec_same; rewrite ?resource_dec_diff by discriminate.

Lemma bind_some : forall {A B} (m : M A) (f : A -> M B) s r,
  bind m f s = Some r -> exists a s1, m s = Some (a, s1) /\ f a s1 = Some r.
Proof.
  intros A B m f s r; unfold bind.
  destruct (m s) as [[a s1]|]; [eauto | discriminate].
Qed.

Lemma create_committed_inv : forall r w u st s a s1,
  create_committed r w u st s = Some (a, s1) ->
  log s1 = log s ++ [(now s, CreateCommittedResource r w u st)] /\ now s1 = now s /\
  m_value s1 = m_value s /\
  mem s1 = (fun r' => if resource_eq_dec r r' then repeat 0 w else mem s r').
Proof. intros * H; injection H as <- <-; repeat split. Qed.

Lemma copy_to_mapped_inv : forall r off bs s a s1,
  copy_to_mapped r off bs s = Some (a, s1) ->
  log s1 = log s ++ [(now s, CopyToMapped r off bs)] /\ now s1 = now s /\
  m_value s1 = m_value s /\
  mem s1 = (fun r' => if resource_eq_dec r r' then write_bytes (mem s r) off bs
                      else mem s r').
Proof. intros * H; injection H as <- <-; repeat split. Qed.

Lemma emit_inv : forall c s a s1,
  emit c s = Some (a, s1) ->
  log s1 = log s ++ [(now s, c)] /\ now s1 = now s /\ m_value s1 = m_value s /\
  mem s1 = mem s.
Proof. intros * H; injection H as <- <-; repeat split. Qed.

Lemma bump_inv : forall s a s1,
  bump s = Some (a, s1) ->
  log s1 = log s ++ [(now s, Signal (U64.add (m_value s) 1))] /\ now s1 = now s /\
  m_value s1 = U64.add (m_value s) 1 /\ mem s1 = mem s.
Proof. intros * H; injection H as <- <-; repeat split. Qed.

Lemma narrow_u32_inv : forall n s a s1,
  narrow_u32 n s = Some (a, s1) -> s1 = s /\ a = Z.of_nat n /\ Z.of_nat n < U32.modulus.
Proof.
  intros n s a s1 H; unfold narrow_u32 in H.
  destruct (Z.ltb_spec (Z.of_nat n) U32.modulus); [|discriminate].
  injection H as <- <-; auto.
Qed.

Lemma expect_inv : forall {A} (o : outcome A) s a s1,
  expect o s = Some (a, s1) -> s1 = s /\ o = Ok a.
Proof.
  intros A o s a s1 H; destruct o as [x|]; [|discriminate].
  injection H as <- <-; auto.
Qed.

Ltac op_inv Hs :=
  lazymatch type of Hs with
  | create_committed _ _ _ _ _ = _ =>
      let E1 := fresh "Elog" in let E2 := fresh "Enow" in
      let E3 := fresh "Em" in let E4 := fresh "Emem" in
      apply create_committed_inv in Hs as (E1 & E2 & E3 & E4)
  | copy_to_mapped _ _ _ _ = _ =>
      let E1 := fresh "Elog" in let E2 := fresh "Enow" in
      let E3 := fresh "Em" in let E4 := fresh "Emem" in
      apply copy_to_mapped_inv in Hs as (E1 & E2 & E3 & E4)
  | emit _ _ = _ =>
      let E1 := fresh "Elog" in let E2 := fresh "Enow" in
      let E3 := fresh "Em" in let E4 := fresh "Emem" in
      apply emit_inv in Hs as (E1 & E2 & E3 & E4)
  | record ?l ?c _ = _ =>
      let E1 := fresh "Elog" in let E2 := fresh "Enow" in
      let E3 := fresh "Em" in let E4 := fresh "Emem" in
      apply (emit_inv (Record l c)) in Hs as (E1 & E2 & E3 & E4)
  | bump _ = _ =>
      let E1 := fresh "Elog" in let E2 := fresh "Enow" in
      let E3 := fresh "Em" in let E4 := fresh "Emem" in
      apply bump_inv in Hs as (E1 & E2 & E3 & E4)
  | narrow_u32 _ _ = _ =>
      let E := fresh "Efit" in
      apply narrow_u32_inv in Hs as (-> & -> & E)
  | expect _ _ = _ =>
      let E := fresh "Eok" in
      apply expect_inv in Hs as (-> & E)
  end.

(* Peel one [bind] off a run that returned. *)
Ltac step H :=
  let a := fresh "a" in let s1 := fresh "s" in let Hs := fresh "Hs" in
  apply bind_some in H; destruct H as (a & s1 & Hs & H); cbv beta in H.

Ltac block_inv Hs :=
  lazymatch type of Hs with
  | block _ _ _ _ = _ =>
      let E1 := fresh "Bm" in let E2 := fresh "Bmem" in let E3 := fresh "Bnow" in
      let evs := fresh "evs" in let E4 := fresh "Blog" in let E5 := fresh "Bevs" in
      let E6 := fresh "Bgpu" in
      apply block_spec in Hs as (E1 & E2 & E3 & (evs & E4 & E5) & E6)
  end.

Ltac collapse :=
  repeat match goal with
  | E : log ?x = _ |- context [log ?x] => rewrite E
  | E : now ?x = _ |- context [now ?x] => rewrite E
  | E : m_value ?x = _ |- context [m_value ?x] => rewrite E
  | E : mem ?x = _ |- context [mem ?x] => rewrite E
  end.

Ltac collapse_in H :=
  repeat match goal with
  | E : log ?x = _ |- _ => match type of H with context [log x] => rewrite E in H end
  | E : now ?x = _ |- _ => match type of H with context [now x] => rewrite E in H end
  | E : m_value ?x = _ |- _ => match type of H with context [m_value x] => rewrite E in H end
  end.

Lemma load_geometry_run : forall gpu fuel object s g s',
  load_geometry gpu fuel object s = Some (g, s') ->
  let v := U64.add (m_value s) 1 in
  let I := geometry_indices object in
  let V := positions object in
  exists pre1 pre2 evs,
    log s' = log s ++ pre1 ++ (now s, AllocatorReset 0) :: pre2 ++
               [(now s, ExecuteCommandLists [0%nat]); (now s, Signal v)] ++ evs ++
               [(now s', Blocked 0); (now s', Release upload_buffer)] /\
    forallb (fun e => negb (is_allocator_reset e) && negb (is_execute e)) pre1 = true /\
    forallb (fun e => negb (is_allocator_reset e) && negb (is_execute e)) pre2 = true /\
    forallb (fun e => fence_wait_call (snd e)) evs = true /\
    (forall tr, fold_left track pre1 tr = tr) /\
    (forall acc, recorded 0 pre1 acc = acc) /\
    (forall tr, fold_left track pre2 tr =
       mk_tracker (fun l => if Nat.eqb 0 l then 0%nat else bound tr l) (pending tr) (ticket tr)) /\
    (forall acc, recorded 0 pre2 acc =
       [CopyBufferRegion index_buffer 0 upload_buffer 0 (length (index_bytes I));
        CopyBufferRegion vertex_buffer 0 upload_buffer (length (index_bytes I))
          (length (vertex_bytes V))]) /\
    m_value s' = v /\ (now s <= now s')%nat /\ v <= gpu (now s') /\
    mem s' upload_buffer = index_bytes I ++ vertex_bytes V /\
    mem s' vertex_buffer = repeat 0 (length (vertex_bytes V)) /\
    mem s' index_buffer = repeat 0 (length (index_bytes I)).
Proof.
  intros gpu fuel object s g s' H.
  unfold load_geometry in H; cbv beta zeta in H.
  repeat (step H; try op_inv Hs; try block_inv Hs).
  injection H as <- <-.
  cbv zeta.
  collapse_in Bgpu.
  rewrite u64_sub_0 in Bgpu by apply u64_add_in_range.
  collapse.
  rewrite <- ?length_index_bytes, <- ?length_vertex_bytes.
  refine (ex_intro _ [_; _; _; _; _; _; _] _).
  refine (ex_intro _ [_; _; _; _] _).
  exists evs.
  split.
  { etransitivity; [rewrite <- !app_assoc; cbn [app]; reflexivity|].
    cbn [app]. reflexivity. }
  split; [reflexivity|]. split; [reflexivity|]. split; [assumption|].
  split; [reflexivity|]. split; [reflexivity|]. split; [reflexivity|].
  split. { intros acc. reflexivity. }
  split; [reflexivity|]. split; [lia|]. split. { destruct Bgpu; lia. }
  eval_mem. cbn [write_bytes firstn length app Nat.add].
  rewrite skipn_repeat_add, write_bytes_fill. auto.
Qed.

Lemma schedule_object_upload_run : forall gpu fuel object s b s',
  schedule_object_upload gpu fuel object s = Some (b, s') ->
  let v := U64.add (m_value s) 1 in
  let V := fst (load_wavefront_vertices object) in
  let I := snd (load_wavefront_vertices object) in
  exists pre evs,
    log s' = log s ++ pre ++
               [(now s, ExecuteCommandLists [0%nat]); (now s, Signal v)] ++ evs ++
               [(now s', Blocked 0); (now s', Release upload_buffer)] /\
    forallb (fun e => fence_wait_call (snd e)) evs = true /\
    (forall acc, recorded 0 pre acc =
       [CopyBufferRegion vertex_buffer 0 upload_buffer 0 (length (vertex_bytes V));
        CopyBufferRegion index_buffer 0 upload_buffer (length (vertex_bytes V))
          (length (index_bytes I));
        ResourceBarrier
          [transition_prototype vertex_buffer D3D12_RESOURCE_STATE_COPY_DEST
             D3D12_RESOURCE_STATE_VERTEX_AND_CONSTANT_BUFFER;
           transition_prototype index_buffer D3D12_RESOURCE_STATE_COPY_DEST
             D3D12_RESOURCE_STATE_INDEX_BUFFER]]) /\
    m_value s' = v /\ (now s <= now s')%nat /\ v <= gpu (now s') /\
    index_count b = Z.of_nat (length I) /\
    mem s' upload_buffer = vertex_bytes V ++ index_bytes I /\
    mem s' vertex_buffer = repeat 0 (length (vertex_bytes V)) /\
    mem s' index_buffer = repeat 0 (length (index_bytes I)).
Proof.
  intros gpu fuel object s b s' H.
  unfold schedule_object_upload in H; cbv beta zeta in H.
  repeat (step H; try op_inv Hs; try block_inv Hs).
  injection H as <- <-.
  cbv zeta.
  collapse_in Bgpu.
  rewrite u64_sub_0 in Bgpu by apply u64_add_in_range.
  collapse.
  rewrite <- ?length_index_bytes, <- ?length_vertex_bytes.
  refine (ex_intro _ [_; _; _; _; _; _; _; _; _; _; _; _] _).
  exists evs.
  split.
  { etransitivity; [rewrite <- !app_assoc; cbn [app]; reflexivity|].
    cbn [app]. reflexivity. }
  split; [assumption|].
  split. { intros acc. reflexivity. }
  split; [reflexivity|]. split; [lia|]. split. { destruct Bgpu; lia. }
  split; [reflexivity|].
  eval_mem. cbn [write_bytes firstn length app Nat.add].
  rewrite skipn_repeat_add, write_bytes_fill. auto.
Qed.

Lemma app_split : forall {A} (l1 l2 pre post : list A) y,
  l1 ++ l2 = pre ++ y :: post ->
  (exists post', l1 = pre ++ y :: post' /\ post = post' ++ l2) \/
  (exists pre2, pre = l1 ++ pre2 /\ l2 = pre2 ++ y :: post).
Proof.
  intros A l1; induction l1 as [|z l1 IH]; intros l2 pre post y E.
  - right. exists pre. auto.
  - destruct pre as [|p pre]; cbn in E; injection E as -> E.
    + left. exists l1. auto.
    + destruct (IH _ _ _ _ E) as [(post' & -> & ->) | (pre2 & -> & ->)].
      * left. exists post'. auto.
      * right. exists pre2. auto.
Qed.

Lemma no_reset_not_in : forall l y,
  forallb (fun e => negb (is_allocator_reset e)) l = true ->
  is_allocator_reset y = true -> ~ In y l.
Proof.
  intros l y H Hy Hin. rewrite forallb_forall in H.
  specialize (H y Hin). rewrite Hy in H. discriminate.
Qed.

Lemma reset_split : forall l1 x l2 pre y post,
  forallb (fun e => negb (is_allocator_reset e)) l1 = true ->
  forallb (fun e => negb (is_allocator_reset e)) l2 = true ->
  is_allocator_reset y = true ->
  l1 ++ x :: l2 = pre ++ y :: post -> pre = l1 /\ y = x /\ post = l2.
Proof.
  intros l1 x l2 pre y post H1 H2 Hy E.
  destruct (app_split l1 (x :: l2) pre post y E) as [(post' & E1 & _) | (pre2 & E1 & E2)].
  - exfalso. apply (no_reset_not_in l1 y H1 Hy). rewrite E1. apply in_elt.
  - destruct pre2 as [|p pre2]; cbn in E2; injection E2 as E2 E3.
    + subst. rewrite app_nil_r. auto.
    + exfalso. apply (no_reset_not_in l2 y H2 Hy). rewrite E3. apply in_elt.
Qed.

Lemma confirmed_nil : forall gpu, resets_confirmed gpu [].
Proof. intros gpu pre t a post E. destruct pre; discriminate. Qed.

Lemma confirmed_extend : forall gpu lg A t a B,
  resets_confirmed gpu lg ->
  forallb (fun e => negb (is_allocator_reset e)) A = true ->
  forallb (fun e => negb (is_allocator_reset e)) B = true ->
  allocator_retired gpu (lg ++ A) a t ->
  (forallb (fun e => negb (is_execute e)) (lg ++ A) = true \/
   exists pre', lg ++ A = pre' ++ [(t, Blocked 1)]) ->
  resets_confirmed gpu (lg ++ A ++ (t, AllocatorReset a) :: B).
Proof.
  intros gpu lg A t a B Hc HA HB Hret Hex pre t' a' post E.
  destruct (app_split lg _ pre post _ E) as [(post' & E1 & _) | (pre2 & E1 & E2)].
  - exact (Hc _ _ _ _ E1).
  - destruct (reset_split A (t, AllocatorReset a) B pre2 (t', AllocatorReset a') post
                HA HB eq_refl E2) as (-> & Ey & _).
    injection Ey as -> ->. subst pre. auto.
Qed.

Lemma forallb_and_l : forall {A} (f g : A -> bool) l,
  forallb (fun e => f e && g e) l = true -> forallb f l = true.
Proof.
  intros A f g l H. rewrite forallb_forall in *. intros x Hx.
  specialize (H x Hx). now apply andb_true_iff in H as [H _].
Qed.

Lemma forallb_and_r : forall {A} (f g : A -> bool) l,
  forallb (fun e => f e && g e) l = true -> forallb g l = true.
Proof.
  intros A f g l H. rewrite forallb_forall in *. intros x Hx.
  specialize (H x Hx). now apply andb_true_iff in H as [_ H].
Qed.

Lemma fence_no_reset : forall evs,
  forallb (fun e => fence_wait_call (snd e)) evs = true ->
  forallb (fun e => negb (is_allocator_reset e)) evs = true.
Proof.
  induction evs as [|[t c] evs IH]; intros H; cbn in *; [reflexivity|].
  destruct c; try discriminate; apply IH; exact H.
Qed.

Lemma track_fence : forall evs tr,
  forallb (fun e => fence_wait_call (snd e)) evs = true -> fold_left track evs tr = tr.
Proof.
  induction evs as [|[t c] evs IH]; intros tr H; cbn in *; [reflexivity|].
  destruct c; try discriminate; apply IH; exact H.
Qed.

Lemma recorded_app : forall l a b acc,
  recorded l (a ++ b) acc = recorded l b (recorded l a acc).
Proof.
  intros l a; induction a as [|[t c] a IH]; intros b acc; cbn; [reflexivity|].
  destruct c; apply IH.
Qed.

Lemma recorded_fence : forall l evs acc,
  forallb (fun e => fence_wait_call (snd e)) evs = true -> recorded l evs acc = acc.
Proof.
  intros l evs; induction evs as [|[t c] evs IH]; intros acc H; cbn in *; [reflexivity|].
  destruct c; try discriminate; apply IH; exact H.
Qed.

Lemma track_records : forall t i cmds tr,
  fold_left track (map (fun c => (t, Record i c)) cmds) tr = tr.
Proof. intros t i cmds; induction cmds as [|c cmds IH]; intros tr; cbn; auto. Qed.

Lemma records_no_reset : forall t i cmds,
  forallb (fun e => negb (is_allocator_reset e)) (map (fun c => (t, Record i c)) cmds) = true.
Proof. intros t i cmds; induction cmds as [|c cmds IH]; cbn; auto. Qed.

(** The commands [record_commands] records, as a log. *)
Lemma record_commands_log : forall i n s,
  record_commands i n s =
  Some (tt, mk_machine (m_value s) (now s)
    (log s ++ (now s, ListReset i i) ::
     map (fun c => (now s, Record i c))
       [SetGraphicsRootSignature; SetGraphicsRoot32BitConstants (4 * 4 * 2);
        IASetPrimitiveTopology; IASetVertexBuffers; IASetIndexBuffer;
        OMSetRenderTargets i; RSSetScissorRects; RSSetViewports;
        ResourceBarrier [mk_barrier D3D12_RESOURCE_BARRIER_TYPE_TRANSITION
                           D3D12_RESOURCE_BARRIER_FLAG_NONE (Some (backbuffer i)) 0
                           D3D12_RESOURCE_STATE_COMMON D3D12_RESOURCE_STATE_RENDER_TARGET];
        ClearDepthStencilView; ClearRenderTargetView i; DrawIndexedInstanced n;
        ResourceBarrier [mk_barrier D3D12_RESOURCE_BARRIER_TYPE_TRANSITION
                           D3D12_RESOURCE_BARRIER_FLAG_NONE (Some (backbuffer i)) 0
                           D3D12_RESOURCE_STATE_RENDER_TARGET D3D12_RESOURCE_STATE_COMMON]]
     ++ [(now s, Close i)]) (mem s)).
Proof.
  intros i n s. unfold record_commands, bind, record, barrier, emit, expect, ret, transition, reverse, logged. cbn. rewrite <- ?app_assoc. reflexivity.
Qed.

Lemma render_run : forall gpu fuel i ic s s',
  render gpu fuel i ic s = Some (tt, s') ->
  exists evs t mid,
    log s' = log s ++ evs ++ (t, Blocked 1) :: (t, AllocatorReset i) :: mid ++
               [(t, ExecuteCommandLists [i]); (t, Present);
                (t, Signal (U64.add (m_value s) 1))] /\
    forallb (fun e => fence_wait_call (snd e)) evs = true /\
    forallb (fun e => negb (is_allocator_reset e)) mid = true /\
    (forall tr, fold_left track mid tr =
       mk_tracker (fun l => if Nat.eqb i l then i else bound tr l) (pending tr) (ticket tr)) /\
    (now s <= t)%nat /\ now s' = t /\ m_value s' = U64.add (m_value s) 1 /\
    (U64.sub (m_value s) 1 <= gpu t \/ m_value s <= gpu t).
Proof.
  intros gpu fuel i ic s s' H.
  unfold render in H.
  step H. block_inv Hs.
  destruct (Nat.ltb i 2); [|discriminate].
  step H; op_inv Hs.
  step H.
  match goal with
  | Hr : record_commands _ _ _ = _ |- _ => rewrite record_commands_log in Hr; injection Hr as _ <-
  end.
  step H; op_inv Hs. step H; op_inv Hs. op_inv H.
  collapse; cbn [log now m_value mem]; collapse; cbn [log now m_value mem].
  match goal with
  | Bn : (now s <= now ?sb)%nat |- _ => exists evs, (now sb)
  end.
  refine (ex_intro _ [_; _; _; _; _; _; _; _; _; _; _; _; _; _; _] _).
  split.
  { etransitivity; [rewrite <- !app_assoc; cbn [app]; reflexivity|].
    cbn [app]. reflexivity. }
  split; [assumption|]. split; [reflexivity|]. split; [reflexivity|].
  split; [assumption|]. split; [reflexivity|]. split; [reflexivity|].
  collapse_in Bgpu. exact Bgpu.
Qed.

Lemma frame_step : forall gpu fuel swap_index ic k s s',
  (forall t t', (t <= t')%nat -> gpu t <= gpu t') ->
  (forall j, swap_index (S j) <> swap_index j) ->
  Z.of_nat k + 2 < U64.modulus ->
  frame_invariant gpu swap_index k s ->
  render gpu fuel (swap_index k) ic s = Some (tt, s') ->
  frame_invariant gpu swap_index (S k) s' /\
  (resets_confirmed gpu (log s) -> resets_confirmed gpu (log s')).
Proof.
  intros gpu fuel swap_index ic k s s' Hmono Halt Hk (Hm & Hpend & Hbound & Htick) H.
  apply render_run in H as (evs & t & mid & Hlog & Hevs & Hmid & Htrack & Hts & Hnow & Hm' & Hgpu).
  rewrite Hm in Hm', Hgpu, Hlog.
  assert (Hsub : U64.sub (Z.of_nat k + 1) 1 = Z.of_nat k).
  { unfold U64.sub, U64.wrap. rewrite Z.mod_small; lia. }
  assert (Hadd : U64.add (Z.of_nat k + 1) 1 = Z.of_nat (S k) + 1).
  { unfold U64.add, U64.wrap. rewrite Z.mod_small; lia. }
  rewrite Hsub in Hgpu. rewrite Hadd in Hm', Hlog.
  assert (Hkg : Z.of_nat k <= gpu t) by (destruct Hgpu; lia).
  assert (Hpre : submissions (log s ++ evs ++ [(t, Blocked 1)]) = submissions (log s)).
  { unfold submissions. rewrite !fold_left_app, (track_fence evs) by exact Hevs. reflexivity. }
  assert (Hret : allocator_retired gpu (log s ++ evs ++ [(t, Blocked 1)]) (swap_index k) t).
  { unfold allocator_retired. rewrite Hpre, Hpend. split; [auto|].
    intros v Hv. destruct (Htick _ _ Hv) as [H1 | [H1 | (j & -> & Ha & _)]].
    - specialize (Hmono _ _ Hts). lia.
    - lia.
    - exfalso. exact (Halt j Ha). }
  split.
  - unfold frame_invariant. rewrite Hlog. unfold submissions.
    rewrite !fold_left_app, (track_fence evs) by exact Hevs.
    cbn [fold_left]. rewrite fold_left_app, Htrack.
    fold (submissions (log s)).
    cbn [fold_left track snd bound pending ticket map app].
    rewrite Nat.eqb_refl, Hpend.
    split; [exact Hm'|]. split; [reflexivity|]. split.
    + intros l. destruct (Nat.eqb_spec (swap_index k) l); [auto | apply Hbound].
    + intros a v Hv. cbn [existsb orb] in Hv. rewrite orb_false_r in Hv.
      destruct (Nat.eqb_spec a (swap_index k)) as [->|Hne].
      * injection Hv as <-. right; right. exists k. auto.
      * rewrite Hnow. destruct (Htick _ _ Hv) as [H1 | [H1 | (j & -> & _ & ->)]].
        -- left. specialize (Hmono _ _ Hts). lia.
        -- right; left. lia.
        -- right; left. lia.
  - intros Hc. rewrite Hlog.
    replace (log s ++ evs ++ (t, Blocked 1) :: (t, AllocatorReset (swap_index k)) :: mid ++
               [(t, ExecuteCommandLists [swap_index k]); (t, Present);
                (t, Signal (Z.of_nat (S k) + 1))])
      with (log s ++ (evs ++ [(t, Blocked 1)]) ++ (t, AllocatorReset (swap_index k)) ::
               (mid ++ [(t, ExecuteCommandLists [swap_index k]); (t, Present);
                (t, Signal (Z.of_nat (S k) + 1))]))
      by (rewrite <- app_assoc; reflexivity).
    apply confirmed_extend.
    + exact Hc.
    + rewrite forallb_app, (fence_no_reset evs) by exact Hevs. reflexivity.
    + rewrite forallb_app, Hmid. reflexivity.
    + exact Hret.
    + right. exists (log s ++ evs). now rewrite <- app_assoc.
Qed.

Lemma render_loop_run : forall gpu fuel swap_index ic n s0 s,
  (forall t t', (t <= t')%nat -> gpu t <= gpu t') ->
  (forall j, swap_index (S j) <> swap_index j) ->
  Z.of_nat n + 1 < U64.modulus ->
  frame_invariant gpu swap_index 0 s0 -> resets_confirmed gpu (log s0) ->
  render_loop gpu fuel swap_index ic n s0 = Some (tt, s) ->
  frame_invariant gpu swap_index n s /\ resets_confirmed gpu (log s).
Proof.
  intros gpu fuel swap_index ic n s0; induction n as [|n IH]; intros s Hmono Halt Hn Hi0 Hc0 H.
  - cbn in H. injection H as <-. auto.
  - cbn [render_loop] in H. step H. destruct a.
    apply IH in Hs as [Hi Hc]; auto; [|lia].
    destruct (frame_step gpu fuel swap_index ic n s1 s Hmono Halt ltac:(lia) Hi H) as [Hi' Hc'].
    auto.
Qed.

Lemma construction_run : forall gpu fuel swap_index object g s0,
  load_geometry gpu fuel object initial_machine = Some (g, s0) ->
  frame_invariant gpu swap_index 0 s0 /\ resets_confirmed gpu (log s0).
Proof.
  intros gpu fuel swap_index object g s0 H.
  apply load_geometry_run in H. cbv zeta in H.
  destruct H as (pre1 & pre2 & evs & Hlog & H1 & H2 & Hevs & Ht1 & _ & Ht2 & _ & Hm & _ & Hgpu & _).
  cbn [log m_value now initial_machine] in Hlog, Hm, Hgpu.
  assert (E1 : U64.add 0 1 = 1) by reflexivity.
  rewrite E1 in Hlog, Hm, Hgpu.
  split.
  - unfold frame_invariant, submissions. rewrite Hlog. cbn [app].
    rewrite fold_left_app, Ht1. cbn [fold_left]. rewrite fold_left_app, Ht2.
    cbn [fold_left app]. rewrite fold_left_app, (track_fence evs) by exact Hevs.
    cbn [fold_left track snd bound pending ticket tracker0 map app].
    split; [exact Hm|]. split; [reflexivity|]. split.
    + intros [|l]; reflexivity.
    + intros a v Hv. cbn [existsb orb Nat.eqb] in Hv.
      destruct a; cbn in Hv; [injection Hv as <-; left; exact Hgpu | discriminate].
  - rewrite Hlog.
    apply confirmed_extend.
    + apply confirmed_nil.
    + exact (forallb_and_l _ _ _ H1).
    + rewrite !forallb_app, (forallb_and_l _ _ _ H2), (fence_no_reset evs) by exact Hevs.
      reflexivity.
    + unfold allocator_retired, submissions. rewrite app_nil_l, Ht1.
      split; [auto | discriminate].
    + left. exact (forallb_and_r _ _ _ H1).
Qed.

(** C1: in every frame of the render loop, with two back buffers handed out
    alternately, the allocator of the frame's entry is reset only at an instant
    at which every submission recorded through it has been followed by a
    fence signal that the GPU has reached, and the reset comes right after
    the return of [block(1)]; the only other reset, in the constructor, comes
    before any submission. *)
Theorem frame_reset_after_retirement : forall gpu fuel object swap_index n s,
  (forall t t', (t <= t')%nat -> gpu t <= gpu t') ->
  (forall k, swap_index (S k) <> swap_index k) ->
  Z.of_nat n + 1 < U64.modulus ->
  run_frames gpu fuel object swap_index n initial_machine = Some (tt, s) ->
  forall pre t a post, log s = pre ++ (t, AllocatorReset a) :: post ->
    allocator_retired gpu pre a t /\
    (forallb (fun e => negb (is_execute e)) pre = true \/
     exists pre', pre = pre' ++ [(t, Blocked 1)]).
Proof.
  intros gpu fuel object swap_index n s Hmono Halt Hn H.
  unfold run_frames in H. step H.
  destruct (construction_run gpu fuel swap_index object a s0 Hs) as [Hi Hc].
  destruct (render_loop_run gpu fuel swap_index _ n s0 s Hmono Halt Hn Hi Hc H) as [_ Hc'].
  exact Hc'.
Qed.

Lemma frame_reset_after_retirement_witness :
  exists s, run_frames lagging_gpu 10 cube flip_index 3 initial_machine = Some (tt, s) /\
  forall pre t a post, log s = pre ++ (t, AllocatorReset a) :: post ->
    allocator_retired lagging_gpu pre a t /\
    (forallb (fun e => negb (is_execute e)) pre = true \/
     exists pre', pre = pre' ++ [(t, Blocked 1)]).
Proof.
  destruct (run_frames lagging_gpu 10 cube flip_index 3 initial_machine) as [[[] s]|] eqn:E.
  - exists s. split; [reflexivity|].
    apply (frame_reset_after_retirement lagging_gpu 10 cube flip_index 3 s).
    + intros t t' Ht. unfold lagging_gpu. lia.
    + intros k. unfold flip_index. rewrite Nat.even_succ, <- Nat.negb_even.
      destruct (Nat.even k); discriminate.
    + vm_compute. reflexivity.
    + exact E.
  - vm_compute in E. discriminate.
Defined.

Lemma write_bytes_whole : forall b x, write_bytes (repeat x (length b)) 0 b = b.
Proof.
  intros b x. pose proof (write_bytes_fill [] b x) as H. cbn [app length] in H. exact H.
Qed.

Lemma load_geometry_recorded : forall gpu fuel object s g s' acc,
  load_geometry gpu fuel object s = Some (g, s') ->
  recorded 0 (log s') acc =
    [CopyBufferRegion index_buffer 0 upload_buffer 0
       (length (index_bytes (geometry_indices object)));
     CopyBufferRegion vertex_buffer 0 upload_buffer
       (length (index_bytes (geometry_indices object)))
       (length (vertex_bytes (positions object)))].
Proof.
  intros gpu fuel object s g s' acc H.
  apply load_geometry_run in H. cbv zeta in H.
  destruct H as (pre1 & pre2 & evs & Hlog & _ & _ & Hevs & _ & Hr1 & _ & Hr2 & _).
  rewrite Hlog, !recorded_app, Hr1. cbn [recorded].
  rewrite recorded_app, Hr2. cbn [app recorded].
  rewrite ?recorded_app, (recorded_fence 0 evs) by exact Hevs. reflexivity.
Qed.

Lemma schedule_object_upload_recorded : forall gpu fuel object s b s' acc,
  schedule_object_upload gpu fuel object s = Some (b, s') ->
  recorded 0 (log s') acc =
    [CopyBufferRegion vertex_buffer 0 upload_buffer 0
       (length (vertex_bytes (fst (load_wavefront_vertices object))));
     CopyBufferRegion index_buffer 0 upload_buffer
       (length (vertex_bytes (fst (load_wavefront_vertices object))))
       (length (index_bytes (snd (load_wavefront_vertices object))));
     ResourceBarrier
       [transition_prototype vertex_buffer D3D12_RESOURCE_STATE_COPY_DEST
          D3D12_RESOURCE_STATE_VERTEX_AND_CONSTANT_BUFFER;
        transition_prototype index_buffer D3D12_RESOURCE_STATE_COPY_DEST
          D3D12_RESOURCE_STATE_INDEX_BUFFER]].
Proof.
  intros gpu fuel object s b s' acc H.
  apply schedule_object_upload_run in H. cbv zeta in H.
  destruct H as (pre & evs & Hlog & Hevs & Hr & _).
  rewrite Hlog, !recorded_app, Hr. cbn [app recorded].
  rewrite ?recorded_app, (recorded_fence 0 evs) by exact Hevs. reflexivity.
Qed.

Lemma list_set_at : forall pre x l v,
  list_set (pre ++ x :: l) (length pre) v = pre ++ v :: l.
Proof. induction pre as [|y pre IH]; intros x l v; cbn; [reflexivity|]. now rewrite IH. Qed.

Lemma fill_indices_rebase : forall fs i pre,
  length pre = (i * 3)%nat ->
  fill_indices fs i (pre ++ repeat 0 (length fs * 3)) =
  pre ++ flat_map (fun f : face_descriptor =>
                     match f with (a, b, c) => [U32.sub a 1; U32.sub b 1; U32.sub c 1] end) fs.
Proof.
  induction fs as [|[[a b] c] fs IH]; intros i pre Hlen.
  - cbn. reflexivity.
  - cbn [length repeat Nat.mul Nat.add fill_indices flat_map].
    replace (S (length fs) * 3)%nat with (S (S (S (length fs * 3)))) by lia.
    cbn [repeat].
    rewrite <- Hlen, list_set_at.
    replace (length pre + 1)%nat with (length (pre ++ [U32.sub a 1])) by (rewrite length_app; reflexivity).
    replace (pre ++ U32.sub a 1 :: 0 :: 0 :: repeat 0 (length fs * 3))
      with ((pre ++ [U32.sub a 1]) ++ 0 :: 0 :: repeat 0 (length fs * 3))
      by (rewrite <- app_assoc; reflexivity).
    rewrite list_set_at.
    replace (length pre + 2)%nat with (length ((pre ++ [U32.sub a 1]) ++ [U32.sub b 1]))
      by (rewrite !length_app; cbn; lia).
    replace ((pre ++ [U32.sub a 1]) ++ U32.sub b 1 :: 0 :: repeat 0 (length fs * 3))
      with (((pre ++ [U32.sub a 1]) ++ [U32.sub b 1]) ++ 0 :: repeat 0 (length fs * 3))
      by (rewrite <- app_assoc; reflexivity).
    rewrite list_set_at.
    replace (((pre ++ [U32.sub a 1]) ++ [U32.sub b 1]) ++ U32.sub c 1 :: repeat 0 (length fs * 3))
      with ((pre ++ [U32.sub a 1; U32.sub b 1; U32.sub c 1]) ++ repeat 0 (length fs * 3))
      by (rewrite <- !app_assoc; reflexivity).
    rewrite IH by (rewrite length_app; cbn; lia).
    rewrite <- app_assoc. reflexivity.
Qed.

(** C2 (fails in the code): [block(lag)] waits for the full counter, not for
    [counter - lag].  With the counter at 5, [block(1)] finds the GPU at 3,
    arms the event for 5, and a GPU that reaches 4 = 5 - 1 at the next instant
    and stays there never releases it, whatever the bound on the wait. *)
Theorem block_overwaits :
  let gpu := fun t : nat => if Nat.eqb t 0 then 3 else 4 in
  let s := mk_machine 5 0 [] (fun _ => []) in
  gpu 0%nat < m_value s - 1 /\ gpu 1%nat >= m_value s - 1 /\
  block_path (m_value s) 1 (gpu 0%nat) = Some 5 /\
  (forall fuel, block gpu fuel 1 s = None).
Proof.
  cbn. split; [lia|]. split; [lia|]. split; [reflexivity|]. intros fuel.
  unfold block, block_path. cbn.
  assert (forall n t, wait_until (fun t : nat => if Nat.eqb t 0 then 3 else 4) 5 t n = None) as W.
  { induction n as [|n IH]; intros t; cbn; destruct (Nat.eqb t 0); cbn; auto. }
  now rewrite W.
Qed.

(** C3 (as stated, refuted): in the run of [load_geometry] on the cube, an
    operation on the staging buffer, its release when [upload_buffer] goes out
    of scope, comes after the return of the confirming [block()]. *)
Lemma upload_release_after_block :
  exists g s', load_geometry lagging_gpu 10 cube initial_machine = Some (g, s') /\
  exists pre, log s' = pre ++ [(1%nat, Blocked 0); (1%nat, Release upload_buffer)].
Proof.
  destruct (load_geometry lagging_gpu 10 cube initial_machine) as [[g s']|] eqn:E.
  - exists g, s'. split; [reflexivity|].
    exists (firstn 17 (log s')).
    vm_compute in E. injection E as _ <-. vm_compute. reflexivity.
  - vm_compute in E. discriminate.
Qed.

(** C3 (amended): both staged uploads ([load_geometry] and part_005's
    [schedule_object_upload]) submit the copy list, signal the next fence
    value right after it, and then block until the GPU has reached that
    value; map, the copies into the staging buffer and unmap all come before
    the submission, and after the block only the release of the staging
    buffer follows. *)
Theorem upload_blocks_before_return :
  forall gpu fuel object obj s g s' s2 b s2',
  load_geometry gpu fuel object s = Some (g, s') ->
  schedule_object_upload gpu fuel obj s2 = Some (b, s2') ->
  (exists pre evs,
     log s' = log s ++ pre ++
       [(now s, ExecuteCommandLists [0%nat]); (now s, Signal (U64.add (m_value s) 1))] ++
       evs ++ [(now s', Blocked 0); (now s', Release upload_buffer)] /\
     forallb (fun e => fence_wait_call (snd e)) evs = true /\
     U64.add (m_value s) 1 <= gpu (now s')) /\
  (exists pre evs,
     log s2' = log s2 ++ pre ++
       [(now s2, ExecuteCommandLists [0%nat]); (now s2, Signal (U64.add (m_value s2) 1))] ++
       evs ++ [(now s2', Blocked 0); (now s2', Release upload_buffer)] /\
     forallb (fun e => fence_wait_call (snd e)) evs = true /\
     U64.add (m_value s2) 1 <= gpu (now s2')).
Proof.
  intros gpu fuel object obj s g s' s2 b s2' H1 H2. split.
  - apply load_geometry_run in H1. cbv zeta in H1.
    destruct H1 as (pre1 & pre2 & evs & Hlog & _ & _ & Hevs & _ & _ & _ & _ & _ & _ & Hgpu & _).
    exists (pre1 ++ (now s, AllocatorReset 0) :: pre2), evs.
    split; [|auto]. rewrite Hlog. rewrite <- app_assoc. reflexivity.
  - apply schedule_object_upload_run in H2. cbv zeta in H2.
    destruct H2 as (pre & evs & Hlog & Hevs & _ & _ & _ & Hgpu & _).
    exists pre, evs. auto.
Qed.

Lemma upload_blocks_before_return_witness :
  exists g s' b s2',
    load_geometry lagging_gpu 10 cube initial_machine = Some (g, s') /\
    schedule_object_upload lagging_gpu 10 cube_object initial_machine = Some (b, s2') /\
  ((exists pre evs,
     log s' = log initial_machine ++ pre ++
       [(now initial_machine, ExecuteCommandLists [0%nat]);
        (now initial_machine, Signal (U64.add (m_value initial_machine) 1))] ++
       evs ++ [(now s', Blocked 0); (now s', Release upload_buffer)] /\
     forallb (fun e => fence_wait_call (snd e)) evs = true /\
     U64.add (m_value initial_machine) 1 <= lagging_gpu (now s')) /\
  (exists pre evs,
     log s2' = log initial_machine ++ pre ++
       [(now initial_machine, ExecuteCommandLists [0%nat]);
        (now initial_machine, Signal (U64.add (m_value initial_machine) 1))] ++
       evs ++ [(now s2', Blocked 0); (now s2', Release upload_buffer)] /\
     forallb (fun e => fence_wait_call (snd e)) evs = true /\
     U64.add (m_value initial_machine) 1 <= lagging_gpu (now s2'))).
Proof.
  destruct (load_geometry lagging_gpu 10 cube initial_machine) as [[g s']|] eqn:E1;
    [|vm_compute in E1; discriminate].
  destruct (schedule_object_upload lagging_gpu 10 cube_object initial_machine) as [[b s2']|] eqn:E2;
    [|vm_compute in E2; discriminate].
  exists g, s', b, s2'. split; [reflexivity|]. split; [reflexivity|].
  exact (upload_blocks_before_return lagging_gpu 10 cube cube_object initial_machine g s'
           initial_machine b s2' E1 E2).
Defined.

(** C4 (fails in the code): the converged [load_geometry] records only the
    two copies, with no barrier, so the list leaves the vertex and index
    buffers declared in the copy-destination state; part_005's
    [schedule_object_upload] records the two transitions after the copies. *)
Theorem load_geometry_records_no_barrier :
  forall gpu fuel object obj s g s' s2 b s2',
  load_geometry gpu fuel object s = Some (g, s') ->
  schedule_object_upload gpu fuel obj s2 = Some (b, s2') ->
  has_barrier (recorded 0 (log s') []) = false /\
  declared_state vertex_buffer D3D12_RESOURCE_STATE_COPY_DEST (recorded 0 (log s') [])
    = Some D3D12_RESOURCE_STATE_COPY_DEST /\
  declared_state index_buffer D3D12_RESOURCE_STATE_COPY_DEST (recorded 0 (log s') [])
    = Some D3D12_RESOURCE_STATE_COPY_DEST /\
  has_barrier (recorded 0 (log s2') []) = true /\
  declared_state vertex_buffer D3D12_RESOURCE_STATE_COPY_DEST (recorded 0 (log s2') [])
    = Some D3D12_RESOURCE_STATE_VERTEX_AND_CONSTANT_BUFFER /\
  declared_state index_buffer D3D12_RESOURCE_STATE_COPY_DEST (recorded 0 (log s2') [])
    = Some D3D12_RESOURCE_STATE_INDEX_BUFFER.
Proof.
  intros gpu fuel object obj s g s' s2 b s2' H1 H2.
  rewrite (load_geometry_recorded _ _ _ _ _ _ _ H1).
  rewrite (schedule_object_upload_recorded _ _ _ _ _ _ _ H2).
  repeat split; reflexivity.
Qed.

Lemma load_geometry_records_no_barrier_witness :
  exists g s' b s2',
    load_geometry lagging_gpu 10 cube initial_machine = Some (g, s') /\
    schedule_object_upload lagging_gpu 10 cube_object initial_machine = Some (b, s2') /\
  (has_barrier (recorded 0 (log s') []) = false /\
  declared_state vertex_buffer D3D12_RESOURCE_STATE_COPY_DEST (recorded 0 (log s') [])
    = Some D3D12_RESOURCE_STATE_COPY_DEST /\
  declared_state index_buffer D3D12_RESOURCE_STATE_COPY_DEST (recorded 0 (log s') [])
    = Some D3D12_RESOURCE_STATE_COPY_DEST /\
  has_barrier (recorded 0 (log s2') []) = true /\
  declared_state vertex_buffer D3D12_RESOURCE_STATE_COPY_DEST (recorded 0 (log s2') [])
    = Some D3D12_RESOURCE_STATE_VERTEX_AND_CONSTANT_BUFFER /\
  declared_state index_buffer D3D12_RESOURCE_STATE_COPY_DEST (recorded 0 (log s2') [])
    = Some D3D12_RESOURCE_STATE_INDEX_BUFFER).
Proof.
  destruct (load_geometry lagging_gpu 10 cube initial_machine) as [[g s']|] eqn:E1;
    [|vm_compute in E1; discriminate].
  destruct (schedule_object_upload lagging_gpu 10 cube_object initial_machine) as [[b s2']|] eqn:E2;
    [|vm_compute in E2; discriminate].
  exists g, s', b, s2'. split; [reflexivity|]. split; [reflexivity|].
  exact (load_geometry_records_no_barrier lagging_gpu 10 cube cube_object initial_machine g s'
           initial_machine b s2' E1 E2).
Defined.

(** C5 (as stated, refuted): the converged [load_geometry] stages the index
    bytes first, so on the cube its staging buffer is not
    [vertex_bytes ++ index_bytes]. *)
Lemma staging_layout_indices_first :
  exists g s', load_geometry lagging_gpu 10 cube initial_machine = Some (g, s') /\
  mem s' upload_buffer <> vertex_bytes (positions cube) ++ index_bytes (geometry_indices cube).
Proof.
  destruct (load_geometry lagging_gpu 10 cube initial_machine) as [[g s']|] eqn:E.
  - exists g, s'. split; [reflexivity|].
    vm_compute in E. injection E as _ <-. vm_compute. intros H. discriminate H.
  - vm_compute in E. discriminate.
Qed.

(** C5 (amended): the staging buffer holds the two payloads back to back
    with no padding, each of its exact byte size (12 bytes a position, 4 an
    index); the converged [load_geometry] puts the indices first and the
    vertices at offset [index byte size], part_005's [schedule_object_upload]
    the vertices first and the indices at offset [vertex byte size]; in both
    the two copies read exactly those offsets and sizes, and the recorded
    list, run on the GPU, leaves each destination buffer holding exactly its
    payload. *)
Theorem staging_layout_exact :
  forall gpu fuel object obj s g s' s2 b s2',
  load_geometry gpu fuel object s = Some (g, s') ->
  schedule_object_upload gpu fuel obj s2 = Some (b, s2') ->
  let I := geometry_indices object in
  let V := positions object in
  let V2 := fst (load_wavefront_vertices obj) in
  let I2 := snd (load_wavefront_vertices obj) in
  length (index_bytes I) = (length I * sizeof_unsigned_int)%nat /\
  length (vertex_bytes V) = (length V * sizeof_vector3)%nat /\
  mem s' upload_buffer = index_bytes I ++ vertex_bytes V /\
  recorded 0 (log s') [] =
    [CopyBufferRegion index_buffer 0 upload_buffer 0 (length (index_bytes I));
     CopyBufferRegion vertex_buffer 0 upload_buffer (length (index_bytes I))
       (length (vertex_bytes V))] /\
  gpu_execute (recorded 0 (log s') []) (mem s') index_buffer = index_bytes I /\
  gpu_execute (recorded 0 (log s') []) (mem s') vertex_buffer = vertex_bytes V /\
  mem s2' upload_buffer = vertex_bytes V2 ++ index_bytes I2 /\
  firstn 2 (recorded 0 (log s2') []) =
    [CopyBufferRegion vertex_buffer 0 upload_buffer 0 (length (vertex_bytes V2));
     CopyBufferRegion index_buffer 0 upload_buffer (length (vertex_bytes V2))
       (length (index_bytes I2))] /\
  gpu_execute (recorded 0 (log s2') []) (mem s2') vertex_buffer = vertex_bytes V2 /\
  gpu_execute (recorded 0 (log s2') []) (mem s2') index_buffer = index_bytes I2.
Proof.
  intros gpu fuel object obj s g s' s2 b s2' H1 H2 I V V2 I2.
  pose proof (load_geometry_recorded _ _ _ _ _ _ [] H1) as R1.
  pose proof (schedule_object_upload_recorded _ _ _ _ _ _ [] H2) as R2.
  apply load_geometry_run in H1. cbv zeta in H1.
  destruct H1 as (pre1 & pre2 & evs & _ & _ & _ & _ & _ & _ & _ & _ & _ & _ & _ & Hup & Hv & Hi).
  apply schedule_object_upload_run in H2. cbv zeta in H2.
  destruct H2 as (pre & evs2 & _ & _ & _ & _ & _ & _ & _ & Hup2 & Hv2 & Hi2).
  fold I V in Hup, Hv, Hi, R1. fold V2 I2 in Hup2, Hv2, Hi2, R2.
  split; [apply length_index_bytes|]. split; [apply length_vertex_bytes|].
  split; [exact Hup|]. split; [exact R1|].
  rewrite R1, R2. unfold gpu_execute. cbn [fold_left gpu_copy].
  repeat split; eval_mem.
  - rewrite Hi, Hup, (proj1 (read_bytes_app _ _)). apply write_bytes_whole.
  - rewrite Hv, Hup, (proj2 (read_bytes_app _ _)). apply write_bytes_whole.
  - exact Hup2.
  - rewrite Hv2, Hup2, (proj1 (read_bytes_app _ _)). apply write_bytes_whole.
  - rewrite Hi2, Hup2, (proj2 (read_bytes_app _ _)). apply write_bytes_whole.
Qed.

Lemma staging_layout_exact_witness :
  exists g s' b s2',
    load_geometry lagging_gpu 10 cube initial_machine = Some (g, s') /\
    schedule_object_upload lagging_gpu 10 cube_object initial_machine = Some (b, s2') /\
  (let I := geometry_indices cube in
   let V := positions cube in
   let V2 := fst (load_wavefront_vertices cube_object) in
   let I2 := snd (load_wavefront_vertices cube_object) in
   length (index_bytes I) = (length I * sizeof_unsigned_int)%nat /\
   length (vertex_bytes V) = (length V * sizeof_vector3)%nat /\
   mem s' upload_buffer = index_bytes I ++ vertex_bytes V /\
   recorded 0 (log s') [] =
     [CopyBufferRegion index_buffer 0 upload_buffer 0 (length (index_bytes I));
      CopyBufferRegion vertex_buffer 0 upload_buffer (length (index_bytes I))
        (length (vertex_bytes V))] /\
   gpu_execute (recorded 0 (log s') []) (mem s') index_buffer = index_bytes I /\
   gpu_execute (recorded 0 (log s') []) (mem s') vertex_buffer = vertex_bytes V /\
   mem s2' upload_buffer = vertex_bytes V2 ++ index_bytes I2 /\
   firstn 2 (recorded 0 (log s2') []) =
     [CopyBufferRegion vertex_buffer 0 upload_buffer 0 (length (vertex_bytes V2));
      CopyBufferRegion index_buffer 0 upload_buffer (length (vertex_bytes V2))
        (length (index_bytes I2))] /\
   gpu_execute (recorded 0 (log s2') []) (mem s2') vertex_buffer = vertex_bytes V2 /\
   gpu_execute (recorded 0 (log s2') []) (mem s2') index_buffer = index_bytes I2).
Proof.
  destruct (load_geometry lagging_gpu 10 cube initial_machine) as [[g s']|] eqn:E1;
    [|vm_compute in E1; discriminate].
  destruct (schedule_object_upload lagging_gpu 10 cube_object initial_machine) as [[b s2']|] eqn:E2;
    [|vm_compute in E2; discriminate].
  exists g, s', b, s2'. split; [reflexivity|]. split; [reflexivity|].
  exact (staging_layout_exact lagging_gpu 10 cube cube_object initial_machine g s'
           initial_machine b s2' E1 E2).
Defined.

(** C6: every recorded frame transitions the back buffer COMMON to
    RENDER_TARGET once and back RENDER_TARGET to COMMON once before the
    list is closed, so the declared state at the close is the state the pass
    started from. *)
Theorem record_commands_pairs_barriers :
  forall i n s, exists s' cmds,
    record_commands i n s = Some (tt, s') /\
    log s' = log s ++ [(now s, ListReset i i)] ++ map (fun c => (now s, Record i c)) cmds
               ++ [(now s, Close i)] /\
    count_transitions (backbuffer i) D3D12_RESOURCE_STATE_COMMON
      D3D12_RESOURCE_STATE_RENDER_TARGET cmds = 1%nat /\
    count_transitions (backbuffer i) D3D12_RESOURCE_STATE_RENDER_TARGET
      D3D12_RESOURCE_STATE_COMMON cmds = 1%nat /\
    declared_state (backbuffer i) D3D12_RESOURCE_STATE_COMMON cmds
      = Some D3D12_RESOURCE_STATE_COMMON.
Proof.
  intros i n s.
  eexists. eexists. split; [apply record_commands_log|].
  split; [reflexivity|].
  unfold count_transitions; cbn.
  destruct (Nat.eq_dec i i) as [e|e]; [|congruence].
  cbn. auto.
Qed.

(** C7 (as stated, refuted): the counter is a [uint64_t]; a [bump] from
    [2^64 - 1] stores and signals 0, so the counter decreases. *)
Lemma bump_wraps :
  let s := mk_machine (U64.modulus - 1) 0 [] (fun _ => []) in
  exists s', bump s = Some (tt, s') /\ m_value s' = 0 /\ log s' = [(0%nat, Signal 0)]
             /\ m_value s' < m_value s.
Proof.
  cbn. eexists; split; [reflexivity|]. vm_compute. repeat split; reflexivity.
Qed.

(** C7 (amended): [bump] returns nothing; [n] bumps from a counter [c] with
    [c + n < 2^64] leave the counter at [c + n] and signal [c + 1], ...,
    [c + n] on the queue in that order. *)
Theorem bumps_sequence : forall n s,
  0 <= m_value s -> m_value s + Z.of_nat n < U64.modulus ->
  exists s', bumps n s = Some (tt, s') /\
    m_value s' = m_value s + Z.of_nat n /\ now s' = now s /\
    log s' = log s ++ map (fun k => (now s, Signal (m_value s + Z.of_nat k))) (seq 1 n).
Proof.
  induction n as [|n IH]; intros s H0 Hn.
  - exists s; cbn; repeat split; [lia | now rewrite app_nil_r].
  - destruct (IH s H0 ltac:(lia)) as (s1 & Hs1 & Hm & Hnow & Hlog).
    cbn [bumps]. unfold bind at 1. rewrite Hs1.
    eexists; split; [reflexivity|].
    unfold U64.add, U64.wrap, logged, set_m_value; cbn [m_value now log].
    rewrite Nat2Z.inj_succ in *.
    rewrite Hm, Z.mod_small by lia.
    split; [lia|]. split; [exact Hnow|].
    rewrite Hlog, Hnow, seq_S, map_app, app_assoc. cbn.
    do 3 f_equal. rewrite Zpos_P_of_succ_nat. f_equal. lia.
Qed.

Lemma bumps_sequence_witness :
  (0 <= m_value initial_machine /\ m_value initial_machine + Z.of_nat 3 < U64.modulus) /\
  exists s', bumps 3 initial_machine = Some (tt, s') /\
    m_value s' = m_value initial_machine + Z.of_nat 3 /\ now s' = now initial_machine /\
    log s' = log initial_machine ++ map (fun k => (now initial_machine,
              Signal (m_value initial_machine + Z.of_nat k))) (seq 1 3).
Proof.
  split; [vm_compute; split; congruence |].
  apply bumps_sequence; vm_compute; congruence.
Defined.

(** C8 (fails in the code): the converged loader stores every face index
    minus 1 (in [unsigned int]), and part_005's [load_wavefront_vertices]
    gives the same 0-based indices on the cube; part_004's
    [schedule_object_upload] stores the 1-based positions unchanged, so on
    the cube (8 positions) it hands out index 8, one past the last vertex. *)
Theorem index_rebase_versions :
  (forall object,
     geometry_indices object =
     flat_map (fun f : face_descriptor =>
                 match f with (a, b, c) => [U32.sub a 1; U32.sub b 1; U32.sub c 1] end)
              (faces object)) /\
  snd (load_wavefront_vertices cube_object) = geometry_indices cube /\
  length (obj_positions cube_object) = 8%nat /\
  existsb (fun x => Z.leb 8 x) (prototype_upload_indices cube_object) = true /\
  prototype_upload_indices cube_object =
    map (fun x => x + 1) (geometry_indices cube).
Proof.
  split; [|vm_compute; repeat split; reflexivity].
  intros object. unfold geometry_indices.
  exact (fill_indices_rebase (faces object) 0 [] eq_refl).
Qed.

(** C9 (fails in the code): the converged [transition] asserts
    [before != after] and otherwise builds exactly the transition barrier of
    the resource and the two states; the [transition] of main.cpp has no such
    check and builds a barrier from COMMON to COMMON without complaint. *)
Theorem transition_contract :
  forall r before after,
    (before = after -> transition r before after = ContractViolation) /\
    (before <> after ->
     transition r before after =
       Ok (mk_barrier D3D12_RESOURCE_BARRIER_TYPE_TRANSITION
             D3D12_RESOURCE_BARRIER_FLAG_NONE (Some r) 0 before after)) /\
    transition_prototype r before after =
      mk_barrier D3D12_RESOURCE_BARRIER_TYPE_TRANSITION
        D3D12_RESOURCE_BARRIER_FLAG_NONE (Some r) 0 before after.
Proof.
  intros r before after; split; [|split]; [unfold transition; intros H..|reflexivity].
  - subst; now rewrite Z.eqb_refl.
  - apply Z.eqb_neq in H; now rewrite H.
Qed.

Lemma transition_contract_witness :
  (transition depth_buffer D3D12_RESOURCE_STATE_COMMON D3D12_RESOURCE_STATE_COMMON
     = ContractViolation /\
   transition_prototype depth_buffer D3D12_RESOURCE_STATE_COMMON D3D12_RESOURCE_STATE_COMMON
     = mk_barrier D3D12_RESOURCE_BARRIER_TYPE_TRANSITION D3D12_RESOURCE_BARRIER_FLAG_NONE
         (Some depth_buffer) 0 D3D12_RESOURCE_STATE_COMMON D3D12_RESOURCE_STATE_COMMON) /\
  transition depth_buffer D3D12_RESOURCE_STATE_COMMON D3D12_RESOURCE_STATE_RENDER_TARGET
    = Ok (mk_barrier D3D12_RESOURCE_BARRIER_TYPE_TRANSITION D3D12_RESOURCE_BARRIER_FLAG_NONE
            (Some depth_buffer) 0 D3D12_RESOURCE_STATE_COMMON
            D3D12_RESOURCE_STATE_RENDER_TARGET).
Proof.
  destruct (transition_contract depth_buffer D3D12_RESOURCE_STATE_COMMON
              D3D12_RESOURCE_STATE_COMMON) as (H1 & _ & H3).
  destruct (transition_contract depth_buffer D3D12_RESOURCE_STATE_COMMON
              D3D12_RESOURCE_STATE_RENDER_TARGET) as (_ & H2 & _).
  split; [split; [apply H1; reflexivity | exact H3]|].
  apply H2. vm_compute. discriminate.
Defined.

(** C10 (as stated, refuted): when the lag exceeds the counter the wait is
    armed for the counter, which need not be signaled yet: with counter 1, a
    GPU still at 0 and lag 2, [block(2)] waits until instant 3, when the GPU
    reaches 1. *)
Lemma block_wrap_waits_for_gpu :
  let gpu := fun t : nat => if Nat.ltb t 3 then 0 else 1 in
  let s := mk_machine 1 0 [] (fun _ => []) in
  gpu (now s) < m_value s /\
  exists s', block gpu 5 2 s = Some (tt, s') /\ now s' = 3%nat /\
    log s' = [(0%nat, GetCompletedValue 0); (0%nat, SetEventOnCompletion 1);
              (3%nat, WaitForSingleObject); (3%nat, Blocked 2)].
Proof.
  cbn. split; [lia|]. eexists; split; [vm_compute; reflexivity|]. split; reflexivity.
Qed.

(** C10 (amended): for a counter [m] and a lag [lag] in 64-bit range, the
    threshold [m - lag] wraps to [m - lag + 2^64] exactly when [lag > m], and
    then any completed value up to [m] takes the wait path on [m]; for
    [lag <= m] there is no wrap-around. *)
Theorem block_threshold_u64 : forall m lag c,
  U64.in_range m -> U64.in_range lag -> 0 <= c ->
  (m < lag -> U64.sub m lag = m - lag + U64.modulus /\
              (c <= m -> block_path m lag c = Some m)) /\
  (lag <= m -> U64.sub m lag = m - lag).
Proof.
  unfold U64.in_range, U64.sub, U64.wrap; intros m lag c Hm Hl Hc; split.
  - intros Hlt.
    assert (E : (m - lag) mod U64.modulus = m - lag + U64.modulus).
    { rewrite <- (Z.mod_small (m - lag + U64.modulus) U64.modulus) by lia.
      rewrite <- Z.add_mod_idemp_r, Z.mod_same by (unfold U64.modulus; lia).
      now rewrite Z.add_0_r. }
    split; [exact E|]. intros Hcm.
    unfold block_path, U64.sub, U64.wrap. rewrite E.
    destruct (Z.ltb_spec c (m - lag + U64.modulus)); [reflexivity | lia].
  - intros Hle. apply Z.mod_small. lia.
Qed.

Lemma block_threshold_u64_witness :
  (U64.in_range 0 /\ U64.in_range 1 /\ 0 <= 0) /\
  ((0 < 1 -> U64.sub 0 1 = 0 - 1 + U64.modulus /\ (0 <= 0 -> block_path 0 1 0 = Some 0)) /\
   (1 <= 0 -> U64.sub 0 1 = 0 - 1)).
Proof.
  split; [unfold U64.in_range, U64.modulus; lia |].
  apply block_threshold_u64; unfold U64.in_range, U64.modulus; lia.
Defined.

(** ** OBJ tokens, numbers and lines *)

Lemma eat_delimiters_repeat : forall d k s,
  WavefrontObjectLoader.eat_delimiters d (repeat d k ++ s) = WavefrontObjectLoader.eat_delimiters d s.
Proof. intros d k s; induction k as [|k IH]; cbn; [reflexivity|]. now rewrite Ascii.eqb_refl. Qed.

Lemma eat_delimiters_stop : forall d c s,
  c <> d -> WavefrontObjectLoader.eat_delimiters d (c :: s) = c :: s.
Proof. intros d c s H; cbn. apply Ascii.eqb_neq in H. now rewrite H. Qed.

Lemma advance_to_delimiter_token : forall d tok rest,
  ~ In d tok -> (match rest with [] => True | c :: _ => c = d end) ->
  WavefrontObjectLoader.advance_to_delimiter d (tok ++ rest) = rest.
Proof.
  intros d tok rest Hn Hr; induction tok as [|c tok IH]; cbn.
  - destruct rest as [|c rest]; [reflexivity|]. subst c. cbn. now rewrite Ascii.eqb_refl.
  - assert (c <> d) as Hc by (intros ->; apply Hn; left; reflexivity).
    apply Ascii.eqb_neq in Hc. rewrite Hc. apply IH. intros H; apply Hn; right; exact H.
Qed.

Lemma firstn_length_app : forall {A} (l r : list A),
  firstn (length (l ++ r) - length r) (l ++ r) = l.
Proof.
  intros A l r. rewrite length_app, Nat.add_sub, firstn_app, Nat.sub_diag, firstn_all.
  cbn. apply app_nil_r.
Qed.

Lemma get_next_token : forall d k tok rest,
  tok <> [] -> ~ In d tok -> (match rest with [] => True | c :: _ => c = d end) ->
  WavefrontObjectLoader.get_next d (repeat d k ++ tok ++ rest) = (tok, rest).
Proof.
  intros d k tok rest Hne Hn Hr. unfold WavefrontObjectLoader.get_next. rewrite eat_delimiters_repeat.
  destruct tok as [|c tok']; [congruence|].
  rewrite <- app_comm_cons, eat_delimiters_stop by (intros ->; apply Hn; left; reflexivity).
  rewrite app_comm_cons, advance_to_delimiter_token by assumption.
  f_equal. apply firstn_length_app.
Qed.

Lemma get_next_token0 : forall d tok rest,
  tok <> [] -> ~ In d tok -> (match rest with [] => True | c :: _ => c = d end) ->
  WavefrontObjectLoader.get_next d (tok ++ rest) = (tok, rest).
Proof. intros; exact (get_next_token d 0 tok rest H H0 H1). Qed.

Lemma get_next_token1 : forall d tok rest,
  tok <> [] -> ~ In d tok -> (match rest with [] => True | c :: _ => c = d end) ->
  WavefrontObjectLoader.get_next d (d :: tok ++ rest) = (tok, rest).
Proof. intros; exact (get_next_token d 1 tok rest H H0 H1). Qed.

Lemma get_next_token2 : forall d tok rest,
  tok <> [] -> ~ In d tok -> (match rest with [] => True | c :: _ => c = d end) ->
  WavefrontObjectLoader.get_next d (d :: d :: tok ++ rest) = (tok, rest).
Proof. intros; exact (get_next_token d 2 tok rest H H0 H1). Qed.

Lemma get_next_nil : forall d, WavefrontObjectLoader.get_next d [] = ([], []).
Proof. reflexivity. Qed.

Lemma get_next_delimiter : forall d s, WavefrontObjectLoader.get_next d (d :: s) = WavefrontObjectLoader.get_next d s.
Proof. intros d s. unfold WavefrontObjectLoader.get_next. cbn [WavefrontObjectLoader.eat_delimiters]. now rewrite Ascii.eqb_refl. Qed.

Lemma eat_delimiters_head : forall d s c s',
  WavefrontObjectLoader.eat_delimiters d s = c :: s' -> Ascii.eqb c d = false /\ (length (c :: s') <= length s)%nat.
Proof.
  intros d s; induction s as [|x s IH]; intros c s' H; cbn in H; [discriminate|].
  destruct (Ascii.eqb x d) eqn:E.
  - apply IH in H as [H1 H2]. cbn in *. split; [exact H1 | lia].
  - inversion H; subst. split; [exact E | cbn; lia].
Qed.

Lemma advance_to_delimiter_length : forall d s,
  (length (WavefrontObjectLoader.advance_to_delimiter d s) <= length s)%nat.
Proof.
  intros d s; induction s as [|x s IH]; cbn; [lia|]. destruct (Ascii.eqb x d); cbn; lia.
Qed.

Lemma eat_delimiters_all : forall d s,
  WavefrontObjectLoader.eat_delimiters d s = [] <-> forallb (fun c => Ascii.eqb c d) s = true.
Proof.
  intros d s; induction s as [|x s IH]; cbn; [tauto|].
  destruct (Ascii.eqb x d); cbn; [exact IH | split; discriminate].
Qed.

Lemma get_next_progress : forall d s,
  s <> [] -> (length (snd (WavefrontObjectLoader.get_next d s)) < length s)%nat.
Proof.
  intros d s Hs. unfold WavefrontObjectLoader.get_next.
  destruct (WavefrontObjectLoader.eat_delimiters d s) as [|c s'] eqn:E.
  - cbn. destruct s; [congruence | cbn; lia].
  - apply eat_delimiters_head in E as [E L]. cbn [snd].
    cbn [WavefrontObjectLoader.advance_to_delimiter]. rewrite E.
    pose proof (advance_to_delimiter_length d s'). cbn in L. lia.
Qed.

Lemma skip_delimiters_eat : forall d s, WavefrontLoader.skip_delimiters d s = WavefrontObjectLoader.eat_delimiters d s.
Proof. intros d s; induction s as [|x s IH]; cbn; [reflexivity|]. now rewrite IH. Qed.

Lemma skip_token_advance : forall d s, WavefrontLoader.skip_token d s = WavefrontObjectLoader.advance_to_delimiter d s.
Proof. intros d s; induction s as [|x s IH]; cbn; [reflexivity|]. now rewrite IH. Qed.

Lemma get_next_same : forall d s, WavefrontLoader.get_next d s = WavefrontObjectLoader.get_next d s.
Proof.
  intros d s. unfold WavefrontLoader.get_next, WavefrontObjectLoader.get_next.
  rewrite skip_delimiters_eat, skip_token_advance.
  destruct (WavefrontObjectLoader.eat_delimiters d s) as [|c s'] eqn:E; [reflexivity|].
  apply eat_delimiters_head in E as [E _].
  cbn [WavefrontObjectLoader.advance_to_delimiter]. rewrite E.
  pose proof (advance_to_delimiter_length d s') as L.
  destruct (Nat.eqb (length (c :: s')) (length (WavefrontObjectLoader.advance_to_delimiter d s'))) eqn:N;
    [apply Nat.eqb_eq in N; cbn [length] in N; lia | reflexivity].
Qed.

Lemma get_next_empty : forall d s,
  fst (WavefrontObjectLoader.get_next d s) = [] <-> forallb (fun c => Ascii.eqb c d) s = true.
Proof.
  intros d s. rewrite <- eat_delimiters_all. unfold WavefrontObjectLoader.get_next.
  destruct (WavefrontObjectLoader.eat_delimiters d s) as [|c s'] eqn:E; cbn [fst]; [tauto|].
  apply eat_delimiters_head in E as [E _].
  cbn [WavefrontObjectLoader.advance_to_delimiter]. rewrite E.
  pose proof (advance_to_delimiter_length d s') as L.
  assert (S (length s' - length (WavefrontObjectLoader.advance_to_delimiter d s')) =
          length (c :: s') - length (WavefrontObjectLoader.advance_to_delimiter d s'))%nat as <-
    by (cbn [length]; lia).
  cbn. split; discriminate.
Qed.

(** ** Decimal numbers *)

Lemma digit_char : forall k, 0 <= k < 10 ->
  is_digit (ascii_of_nat (48 + Z.to_nat k)) = true /\
  digit_value (ascii_of_nat (48 + Z.to_nat k)) = k.
Proof.
  intros k Hk. unfold is_digit, digit_value.
  rewrite nat_ascii_embedding by lia. split.
  - apply andb_true_intro; split; apply Nat.leb_le; lia.
  - lia.
Qed.

Lemma digits_rev_S : forall f n, digits_rev (S f) n =
  ascii_of_nat (48 + Z.to_nat (n mod 10)) :: (if n <? 10 then [] else digits_rev f (n / 10)).
Proof. reflexivity. Qed.

Lemma digits_rev_spec : forall f n, 0 <= n < 2 ^ Z.of_nat (S f) ->
  forallb is_digit (digits_rev (S f) n) = true /\ digits_rev (S f) n <> [] /\
  fold_left decimal_step (rev (digits_rev (S f) n)) 0 = n.
Proof.
  induction f as [|f IH]; intros n Hn.
  - cbn [digits_rev]. assert (n < 2) by (cbn in Hn; lia).
    replace (n <? 10) with true by (symmetry; apply Z.ltb_lt; lia).
    destruct (digit_char (n mod 10)) as [D V]; [apply Z.mod_pos_bound; lia|].
    cbn [forallb rev app fold_left]. rewrite D. split; [reflexivity|]. split; [discriminate|].
    unfold decimal_step. rewrite V. rewrite Z.mod_small; lia.
  - rewrite digits_rev_S.
    destruct (digit_char (n mod 10)) as [D V]; [apply Z.mod_pos_bound; lia|].
    destruct (Z.ltb_spec n 10).
    + cbn [forallb rev app fold_left]. rewrite D. split; [reflexivity|]. split; [discriminate|].
      unfold decimal_step. rewrite V. rewrite Z.mod_small; lia.
    + destruct (IH (n / 10)) as (H1 & H2 & H3).
      { split; [apply Z.div_pos; lia|].
        rewrite Nat2Z.inj_succ, Z.pow_succ_r in Hn by lia.
        apply Z.div_lt_upper_bound; lia. }
      cbn [forallb]. rewrite D, H1. split; [reflexivity|]. split; [discriminate|].
      cbn [rev]. rewrite fold_left_app, H3. cbn [fold_left]. unfold decimal_step.
      rewrite V. rewrite (Z.div_mod n 10) at 3 by lia. lia.
Qed.

Lemma forallb_rev : forall {A} (p : A -> bool) l, forallb p (rev l) = forallb p l.
Proof.
  intros A p l; induction l as [|x l IH]; cbn; [reflexivity|].
  rewrite forallb_app, IH; cbn. now rewrite andb_true_r, andb_comm.
Qed.

Lemma decimal_string_spec : forall n, 0 <= n ->
  forallb is_digit (decimal_string n) = true /\ decimal_string n <> [] /\
  fold_left decimal_step (decimal_string n) 0 = n.
Proof.
  intros n Hn. unfold decimal_string.
  destruct (digits_rev_spec (Z.to_nat (Z.log2 n)) n) as (H1 & H2 & H3).
  { split; [exact Hn|]. rewrite Nat2Z.inj_succ, Z2Nat.id by apply Z.log2_nonneg.
    destruct (Z.eq_dec n 0) as [->|Hn0]; [cbn; lia|].
    apply Z.log2_spec; lia. }
  rewrite forallb_rev. split; [exact H1|]. split; [|exact H3].
  intros E. apply H2. rewrite <- (rev_involutive (digits_rev _ n)), E. reflexivity.
Qed.

Lemma digit_run_all : forall s, forallb is_digit s = true -> digit_run s = s.
Proof.
  intros s; induction s as [|c s IH]; cbn; [reflexivity|].
  intros H. apply andb_prop in H as [H1 H2]. rewrite H1, IH by exact H2. reflexivity.
Qed.

Lemma digit_run_stop : forall s c r, forallb is_digit s = true -> is_digit c = false ->
  digit_run (s ++ c :: r) = s.
Proof.
  intros s c r; induction s as [|x s IH]; cbn; intros H Hc; [now rewrite Hc|].
  apply andb_prop in H as [H1 H2]. rewrite H1, IH by assumption. reflexivity.
Qed.

Lemma digit_run_short : forall s,
  existsb (fun c => negb (is_digit c)) s = true -> (length (digit_run s) < length s)%nat.
Proof.
  intros s; induction s as [|c s IH]; cbn; [discriminate|].
  destruct (is_digit c); cbn; intros H; [apply IH in H; lia | lia].
Qed.

Lemma from_chars_uint_decimal : forall n r, 0 <= n ->
  (match r with [] => True | c :: _ => is_digit c = false end) ->
  from_chars_uint (decimal_string n ++ r) =
    (if n <? U32.modulus then Some n else None, length (decimal_string n)).
Proof.
  intros n r Hn Hr. destruct (decimal_string_spec n Hn) as (H1 & H2 & H3).
  unfold from_chars_uint.
  assert (digit_run (decimal_string n ++ r) = decimal_string n) as E.
  { destruct r as [|c r]; [rewrite app_nil_r; apply digit_run_all, H1|].
    apply digit_run_stop; assumption. }
  rewrite E. destruct (decimal_string n) as [|c0 ds] eqn:D; [congruence|].
  change (fun acc c => acc * 10 + digit_value c) with decimal_step. rewrite H3. reflexivity.
Qed.

Lemma convert_decimal : forall n, 0 <= n ->
  WavefrontObjectLoader.convert from_chars_uint (decimal_string n) = Some (if n <? U32.modulus then n else 0).
Proof.
  intros n Hn. unfold WavefrontObjectLoader.convert.
  pose proof (from_chars_uint_decimal n [] Hn I) as E. rewrite app_nil_r in E.
  rewrite E, Nat.eqb_refl. destruct (n <? U32.modulus); reflexivity.
Qed.

Lemma convert_decimal_in_range : forall n, 0 <= n < U32.modulus ->
  WavefrontObjectLoader.convert from_chars_uint (decimal_string n) = Some n.
Proof.
  intros n Hn. rewrite convert_decimal by lia.
  replace (n <? U32.modulus) with true by (symmetry; apply Z.ltb_lt; lia). reflexivity.
Qed.

Lemma convert_non_digit : forall s,
  existsb (fun c => negb (is_digit c)) s = true -> WavefrontObjectLoader.convert from_chars_uint s = None.
Proof.
  intros s H. pose proof (digit_run_short s H) as L. unfold WavefrontObjectLoader.convert, from_chars_uint.
  destruct (digit_run s) as [|c ds] eqn:E.
  - destruct s; [discriminate | reflexivity].
  - destruct (Nat.eqb_spec (length (c :: ds)) (length s)); [lia | reflexivity].
Qed.

Lemma convert_old_decimal : forall n r, 0 <= n < U32.modulus ->
  (match r with [] => True | c :: _ => is_digit c = false end) ->
  WavefrontLoader.convert from_chars_uint (decimal_string n ++ r) = n.
Proof.
  intros n r Hn Hr. unfold WavefrontLoader.convert. rewrite from_chars_uint_decimal by (lia || exact Hr).
  replace (n <? U32.modulus) with true by (symmetry; apply Z.ltb_lt; lia). reflexivity.
Qed.

Lemma not_in_digits : forall d s, is_digit d = false -> forallb is_digit s = true -> ~ In d s.
Proof.
  intros d s Hd Hs Hin. rewrite forallb_forall in Hs. apply Hs in Hin. congruence.
Qed.

Lemma decimal_no_delim : forall n d, 0 <= n -> is_digit d = false ->
  decimal_string n <> [] /\ ~ In d (decimal_string n).
Proof.
  intros n d Hn Hd. destruct (decimal_string_spec n Hn) as (H1 & H2 & _).
  split; [exact H2 | apply not_in_digits; assumption].
Qed.

(** ** Characters absent from a text *)

Lemma no_char_not_in : forall d s, no_char d s = true -> ~ In d s.
Proof.
  intros d s H Hin. unfold no_char in H. rewrite forallb_forall in H.
  apply H in Hin. rewrite Ascii.eqb_refl in Hin. discriminate.
Qed.

Lemma no_char_app : forall d a b, no_char d (a ++ b) = no_char d a && no_char d b.
Proof. intros; apply forallb_app. Qed.

Lemma no_char_cons : forall d c s, no_char d (c :: s) = negb (Ascii.eqb c d) && no_char d s.
Proof. reflexivity. Qed.

Lemma no_char_decimal : forall d n, 0 <= n -> is_digit d = false ->
  no_char d (decimal_string n) = true.
Proof.
  intros d n Hn Hd. destruct (decimal_string_spec n Hn) as (H1 & _).
  unfold no_char. rewrite forallb_forall in *. intros c Hc. apply H1 in Hc.
  destruct (Ascii.eqb_spec c d); [subst; congruence | reflexivity].
Qed.

Lemma decimal_not_nil : forall n, 0 <= n -> decimal_string n <> [].
Proof. intros n Hn. apply (decimal_string_spec n Hn). Qed.

Lemma in_range_of : forall n, (0 <=? n) && (n <? U32.modulus) = true -> 0 <= n < U32.modulus.
Proof. intros n H. apply andb_prop in H as [H1 H2]. apply Z.leb_le in H1. apply Z.ltb_lt in H2. lia. Qed.

Ltac no_char_solve :=
  repeat first [ rewrite no_char_app | rewrite no_char_cons ];
  repeat (rewrite no_char_decimal by (lia || reflexivity));
  reflexivity.

Ltac tok_side :=
  first [ reflexivity | assumption
        | (apply decimal_not_nil; lia)
        | (let E := fresh in intro E; apply app_eq_nil in E; destruct E as [_ E]; discriminate E)
        | (apply no_char_not_in; no_char_solve)
        | discriminate ].

Lemma get_next_last0 : forall d tok, tok <> [] -> ~ In d tok -> WavefrontObjectLoader.get_next d tok = (tok, []).
Proof. intros d tok H1 H2. rewrite <- (app_nil_r tok) at 1. now apply get_next_token0. Qed.

Lemma get_next_last1 : forall d tok, tok <> [] -> ~ In d tok -> WavefrontObjectLoader.get_next d (d :: tok) = (tok, []).
Proof. intros d tok H1 H2. rewrite <- (app_nil_r tok) at 1. now apply get_next_token1. Qed.

Lemma get_next_last2 : forall d tok, tok <> [] -> ~ In d tok -> WavefrontObjectLoader.get_next d (d :: d :: tok) = (tok, []).
Proof. intros d tok H1 H2. rewrite <- (app_nil_r tok) at 1. now apply get_next_token2. Qed.

(** ** Face vertices *)

Lemma unpack_full : forall p t n,
  0 <= p < U32.modulus -> 0 <= t < U32.modulus -> 0 <= n < U32.modulus ->
  WavefrontObjectLoader.unpack_face_vertex
    (decimal_string p ++ slash :: decimal_string t ++ slash :: decimal_string n) =
  Some (mk_wavefront_vertex p n t).
Proof.
  intros p t n Hp Ht Hn. unfold WavefrontObjectLoader.unpack_face_vertex.
  rewrite get_next_token0 by tok_side. rewrite convert_decimal_in_range by lia.
  rewrite get_next_token1 by tok_side. rewrite convert_decimal_in_range by lia.
  rewrite get_next_last1 by tok_side. rewrite convert_decimal_in_range by lia.
  reflexivity.
Qed.

Lemma unpack_no_texture : forall p n,
  0 <= p < U32.modulus -> 0 <= n < U32.modulus ->
  WavefrontObjectLoader.unpack_face_vertex (decimal_string p ++ slash :: slash :: decimal_string n) =
  Some (mk_wavefront_vertex p 0 n).
Proof.
  intros p n Hp Hn. unfold WavefrontObjectLoader.unpack_face_vertex.
  rewrite get_next_token0 by tok_side. rewrite convert_decimal_in_range by lia.
  rewrite get_next_last2 by tok_side. rewrite convert_decimal_in_range by lia.
  reflexivity.
Qed.

Lemma unpack_position_only : forall p r,
  0 <= p < U32.modulus -> (r = [] \/ r = [carriage_return]) ->
  WavefrontObjectLoader.unpack_face_vertex (decimal_string p ++ r) =
  if Nat.eqb (length r) 0 then Some (mk_wavefront_vertex p 0 0) else None.
Proof.
  intros p r Hp [-> | ->]; unfold WavefrontObjectLoader.unpack_face_vertex.
  - rewrite app_nil_r, get_next_last0 by tok_side. rewrite convert_decimal_in_range by lia.
    reflexivity.
  - rewrite get_next_last0 by tok_side.
    rewrite convert_non_digit; [reflexivity|].
    rewrite existsb_app. apply orb_true_intro. right. reflexivity.
Qed.

Lemma unpack_four_fields : forall p t n q,
  0 <= p < U32.modulus -> 0 <= t < U32.modulus -> 0 <= n < U32.modulus -> 0 <= q ->
  WavefrontObjectLoader.unpack_face_vertex
    (decimal_string p ++ slash :: decimal_string t ++ slash :: decimal_string n ++
     slash :: decimal_string q) = None.
Proof.
  intros p t n q Hp Ht Hn Hq. unfold WavefrontObjectLoader.unpack_face_vertex.
  rewrite get_next_token0 by tok_side. rewrite convert_decimal_in_range by lia.
  rewrite get_next_token1 by tok_side. rewrite convert_decimal_in_range by lia.
  rewrite get_next_token1 by tok_side. rewrite convert_decimal_in_range by lia.
  rewrite get_next_last1 by tok_side.
  destruct (decimal_string q) eqn:E; [exfalso; exact (decimal_not_nil q Hq E) | reflexivity].
Qed.

(** ** The line loops *)

Section Loops.
Variable ff : list ascii -> option Z * nat.

Lemma wol_fuel : forall f1 f2 c o, (length c < f1)%nat -> (length c < f2)%nat ->
  WavefrontObjectLoader.load_lines ff f1 c o = WavefrontObjectLoader.load_lines ff f2 c o.
Proof.
  induction f1 as [|f1 IH]; intros f2 c o H1 H2; [lia|].
  destruct f2 as [|f2]; [lia|]. cbn [WavefrontObjectLoader.load_lines].
  destruct c as [|a c]; [reflexivity|].
  pose proof (get_next_progress newline (a :: c) ltac:(discriminate)) as P.
  destruct (WavefrontObjectLoader.get_next newline (a :: c)) as [line rest]. cbn [snd] in P.
  destruct (WavefrontObjectLoader.read_line ff line o); [|reflexivity].
  apply IH; lia.
Qed.

Lemma wol_unfold : forall f c o, c <> [] ->
  WavefrontObjectLoader.load_lines ff (S f) c o =
  let (line, c') := WavefrontObjectLoader.get_next newline c in
  match WavefrontObjectLoader.read_line ff line o with
  | Some o' => WavefrontObjectLoader.load_lines ff f c' o'
  | None => None
  end.
Proof. intros f [|a c] o H; [congruence|reflexivity]. Qed.

Lemma wol_read_line_nil : forall o, WavefrontObjectLoader.read_line ff [] o = Some o.
Proof. reflexivity. Qed.

Lemma wol_newline : forall f rest o,
  WavefrontObjectLoader.load_lines ff (S f) (newline :: rest) o = WavefrontObjectLoader.load_lines ff (S f) rest o.
Proof.
  intros f rest o. cbn [WavefrontObjectLoader.load_lines]. rewrite get_next_delimiter.
  destruct rest as [|a rest].
  - rewrite get_next_nil, wol_read_line_nil. destruct f; reflexivity.
  - reflexivity.
Qed.

Lemma wol_step : forall line rest o, line <> [] -> ~ In newline line ->
  WavefrontObjectLoader.load_lines ff (S (length (line ++ newline :: rest))) (line ++ newline :: rest) o =
  match WavefrontObjectLoader.read_line ff line o with
  | Some o' => WavefrontObjectLoader.load_lines ff (S (length rest)) rest o'
  | None => None
  end.
Proof.
  intros line rest o Hne Hin.
  rewrite wol_unfold by (destruct line; [congruence|discriminate]).
  rewrite (get_next_token0 newline line (newline :: rest)) by (auto || reflexivity).
  destruct (WavefrontObjectLoader.read_line ff line o) as [o'|]; [|reflexivity].
  assert (L : (0 < length line)%nat) by (destruct line; [congruence|cbn [length]; lia]).
  rewrite (wol_fuel _ (S (S (length rest)))) by (rewrite ?length_app; cbn [length]; lia).
  rewrite wol_newline. apply wol_fuel; cbn [length]; lia.
Qed.

Lemma wol_end : forall f o, WavefrontObjectLoader.load_lines ff f [] o = Some o.
Proof. intros [|f] o; reflexivity. Qed.

Lemma wl_fuel : forall f1 f2 c w, (length c < f1)%nat -> (length c < f2)%nat ->
  WavefrontLoader.load_lines ff f1 c w = WavefrontLoader.load_lines ff f2 c w.
Proof.
  induction f1 as [|f1 IH]; intros f2 c w H1 H2; [lia|].
  destruct f2 as [|f2]; [lia|]. cbn [WavefrontLoader.load_lines]. rewrite get_next_same.
  destruct c as [|a c]; [reflexivity|].
  pose proof (get_next_progress newline (a :: c) ltac:(discriminate)) as P.
  destruct (WavefrontObjectLoader.get_next newline (a :: c)) as [line rest]. cbn [snd] in P.
  destruct line; [reflexivity|]. apply IH; lia.
Qed.

Lemma wl_unfold : forall f c w,
  WavefrontLoader.load_lines ff (S f) c w =
  let (line, c') := WavefrontObjectLoader.get_next newline c in
  match line with
  | [] => w
  | _ => WavefrontLoader.load_lines ff f c' (WavefrontLoader.read_line ff line w)
  end.
Proof. intros f c w. cbn [WavefrontLoader.load_lines]. now rewrite get_next_same. Qed.

Lemma wl_newline : forall f rest w,
  WavefrontLoader.load_lines ff (S f) (newline :: rest) w = WavefrontLoader.load_lines ff (S f) rest w.
Proof.
  intros f rest w. cbn [WavefrontLoader.load_lines]. rewrite !get_next_same, get_next_delimiter.
  reflexivity.
Qed.

Lemma wl_step : forall line rest w, line <> [] -> ~ In newline line ->
  WavefrontLoader.load_lines ff (S (length (line ++ newline :: rest))) (line ++ newline :: rest) w =
  WavefrontLoader.load_lines ff (S (length rest)) rest (WavefrontLoader.read_line ff line w).
Proof.
  intros line rest w Hne Hin. rewrite wl_unfold.
  rewrite (get_next_token0 newline line (newline :: rest)) by (auto || reflexivity).
  destruct line as [|a l]; [congruence|].
  rewrite (wl_fuel _ (S (S (length rest)))) by (cbn [length app]; rewrite ?length_app; cbn [length]; lia).
  rewrite wl_newline. apply wl_fuel; cbn [length]; lia.
Qed.

Lemma wl_end : forall f w, WavefrontLoader.load_lines ff f [] w = w.
Proof. intros [|f] w; reflexivity. Qed.

End Loops.

(** ** Face lines *)

Lemma vertex_range : forall v, vertex_in_range v = true ->
  0 <= position v < U32.modulus /\ 0 <= normal v < U32.modulus /\ 0 <= uvw v < U32.modulus.
Proof.
  intros v H. unfold vertex_in_range in H.
  repeat (apply andb_prop in H as [H ?]).
  repeat match goal with
         | h : (_ <=? _) = true |- _ => apply Z.leb_le in h
         | h : (_ <? _) = true |- _ => apply Z.ltb_lt in h
         end.
  lia.
Qed.

Lemma triangle_range : forall a b c, triangle_in_range (a, b, c) = true ->
  vertex_in_range a = true /\ vertex_in_range b = true /\ vertex_in_range c = true.
Proof.
  intros a b c H. cbn [triangle_in_range] in H.
  apply andb_prop in H as [H H3]. apply andb_prop in H as [H1 H2]. auto.
Qed.

Lemma face_range : forall a b c, face_in_range (a, b, c) = true ->
  0 <= a < U32.modulus /\ 0 <= b < U32.modulus /\ 0 <= c < U32.modulus.
Proof.
  intros a b c H. cbn [face_in_range] in H.
  repeat (apply andb_prop in H as [H ?]).
  repeat match goal with
         | h : (_ <=? _) = true |- _ => apply Z.leb_le in h
         | h : (_ <? _) = true |- _ => apply Z.ltb_lt in h
         end.
  lia.
Qed.

Lemma no_char_vertex_text : forall d v, vertex_in_range v = true ->
  is_digit d = false -> Ascii.eqb slash d = false -> no_char d (vertex_text v) = true.
Proof.
  intros d v Hv Hd Hs. destruct (vertex_range v Hv) as (H1 & H2 & H3).
  unfold vertex_text. rewrite !no_char_app, !no_char_cons, !no_char_app, no_char_cons.
  rewrite !no_char_decimal by (lia || assumption). rewrite Hs. reflexivity.
Qed.

Lemma vertex_text_not_nil : forall v, vertex_in_range v = true -> vertex_text v <> [].
Proof.
  intros v _ E. unfold vertex_text in E. apply app_eq_nil in E as [_ E]. discriminate E.
Qed.

Lemma unpack_vertex_text : forall v, vertex_in_range v = true ->
  WavefrontObjectLoader.unpack_face_vertex (vertex_text v) = Some v.
Proof.
  intros v Hv. destruct (vertex_range v Hv) as (H1 & H2 & H3).
  destruct v as [p n t]. cbn [position normal uvw] in *. unfold vertex_text.
  cbn [position normal uvw]. now apply unpack_full.
Qed.

Lemma unpack_vertex_text_cr : forall v, vertex_in_range v = true ->
  WavefrontObjectLoader.unpack_face_vertex (vertex_text v ++ [carriage_return]) = None.
Proof.
  intros v Hv. destruct (vertex_range v Hv) as (H1 & H2 & H3).
  unfold vertex_text, WavefrontObjectLoader.unpack_face_vertex. repeat (rewrite <- app_assoc; cbn [app]).
  rewrite get_next_token0 by tok_side. rewrite convert_decimal_in_range by lia.
  rewrite get_next_token1 by tok_side. rewrite convert_decimal_in_range by lia.
  rewrite get_next_last1 by tok_side.
  rewrite convert_non_digit; [reflexivity|].
  rewrite existsb_app. apply orb_true_intro. right. reflexivity.
Qed.

Lemma get_next_single : forall d c rest, Ascii.eqb c d = false ->
  (match rest with [] => True | c :: _ => c = d end) ->
  WavefrontObjectLoader.get_next d (c :: rest) = ([c], rest).
Proof.
  intros d c rest H1 H2. apply (get_next_token0 d [c] rest); [discriminate| |exact H2].
  intros [E|[]]. subst. rewrite Ascii.eqb_refl in H1. discriminate.
Qed.

Lemma sv_f_v : string_view_eqb ["f"%char] ["v"%char] = false.
Proof. reflexivity. Qed.
Lemma sv_f_vn : string_view_eqb ["f"%char] ["v"%char; "n"%char] = false.
Proof. reflexivity. Qed.
Lemma sv_f_vt : string_view_eqb ["f"%char] ["v"%char; "t"%char] = false.
Proof. reflexivity. Qed.
Lemma sv_f_f : string_view_eqb ["f"%char] ["f"%char] = true.
Proof. reflexivity. Qed.

Ltac vtok_side :=
  first [ tok_side
        | (apply vertex_text_not_nil; assumption)
        | (apply no_char_not_in, no_char_vertex_text; (assumption || reflexivity))
        | (apply no_char_not_in; rewrite no_char_app, no_char_vertex_text by (assumption || reflexivity);
           reflexivity)
        | (let E := fresh in intro E; apply app_eq_nil in E; destruct E as [E _];
           exact (vertex_text_not_nil _ ltac:(assumption) E)) ].

Section Lines.
Variable ff : list ascii -> option Z * nat.

Lemma read_triangle_text : forall a b c, triangle_in_range (a, b, c) = true ->
  WavefrontObjectLoader.read_triangle (space :: vertex_text a ++ space :: vertex_text b ++ space :: vertex_text c) =
  Some (a, b, c).
Proof.
  intros a b c H. destruct (triangle_range a b c H) as (Ha & Hb & Hc).
  unfold WavefrontObjectLoader.read_triangle.
  rewrite get_next_token1 by vtok_side. rewrite unpack_vertex_text by assumption.
  rewrite get_next_token1 by vtok_side. rewrite unpack_vertex_text by assumption.
  rewrite get_next_last1 by vtok_side. rewrite unpack_vertex_text by assumption.
  reflexivity.
Qed.

Lemma read_triangle_text_cr : forall a b c, triangle_in_range (a, b, c) = true ->
  WavefrontObjectLoader.read_triangle
    (space :: vertex_text a ++ space :: vertex_text b ++ space :: vertex_text c ++
     [carriage_return]) = None.
Proof.
  intros a b c H. destruct (triangle_range a b c H) as (Ha & Hb & Hc).
  unfold WavefrontObjectLoader.read_triangle.
  rewrite get_next_token1 by vtok_side. rewrite unpack_vertex_text by assumption.
  rewrite get_next_token1 by vtok_side. rewrite unpack_vertex_text by assumption.
  rewrite get_next_last1 by vtok_side. rewrite unpack_vertex_text_cr by assumption.
  reflexivity.
Qed.

Lemma wol_read_face_text : forall t o, triangle_in_range t = true ->
  WavefrontObjectLoader.read_line ff (face_text t) o =
  Some (WavefrontObjectLoader.mk_wavefront_object (WavefrontObjectLoader.positions o) (WavefrontObjectLoader.normals o) (WavefrontObjectLoader.uvws o)
          (WavefrontObjectLoader.faces o ++ [t])).
Proof.
  intros [[a b] c] o H. unfold face_text, WavefrontObjectLoader.read_line.
  rewrite get_next_token0 by tok_side.
  rewrite sv_f_v, sv_f_vn, sv_f_vt, sv_f_f, read_triangle_text by assumption.
  reflexivity.
Qed.

Lemma wol_read_face_text_cr : forall t o, triangle_in_range t = true ->
  WavefrontObjectLoader.read_line ff (face_text t ++ [carriage_return]) o = None.
Proof.
  intros [[a b] c] o H. unfold face_text, WavefrontObjectLoader.read_line.
  repeat (rewrite <- app_assoc; cbn [app]).
  rewrite get_next_single by tok_side.
  rewrite sv_f_v, sv_f_vn, sv_f_vt, sv_f_f.
  rewrite read_triangle_text_cr by assumption.
  reflexivity.
Qed.

End Lines.

Lemma convert_old_decimal0 : forall n, 0 <= n < U32.modulus ->
  WavefrontLoader.convert from_chars_uint (decimal_string n) = n.
Proof. intros n Hn. rewrite <- (app_nil_r (decimal_string n)). now apply convert_old_decimal. Qed.

Lemma face_descriptor_text_app : forall a b c r,
  face_descriptor_text (a, b, c) ++ r =
  "f"%char :: space :: decimal_string a ++ space :: decimal_string b ++ space ::
  (decimal_string c ++ r).
Proof. intros. cbn [face_descriptor_text]. repeat (rewrite <- app_assoc; cbn [app]). reflexivity. Qed.

Lemma face_text_app : forall a b c r,
  face_text (a, b, c) ++ r =
  "f"%char :: space :: vertex_text a ++ space :: vertex_text b ++ space ::
  (vertex_text c ++ r).
Proof. intros. cbn [face_text]. repeat (rewrite <- app_assoc; cbn [app]). reflexivity. Qed.

Lemma no_char_newline_vertex : forall v, vertex_in_range v = true ->
  no_char newline (vertex_text v) = true.
Proof. intros v Hv. apply no_char_vertex_text; (assumption || reflexivity). Qed.

Lemma face_text_no_newline : forall t r, triangle_in_range t = true ->
  (r = [] \/ r = [carriage_return]) -> ~ In newline (face_text t ++ r).
Proof.
  intros [[a b] c] r H Hr. destruct (triangle_range a b c H) as (Ha & Hb & Hc).
  rewrite face_text_app. apply no_char_not_in.
  repeat first [ rewrite no_char_app | rewrite no_char_cons
               | rewrite no_char_newline_vertex by assumption ].
  destruct Hr as [-> | ->]; reflexivity.
Qed.

Lemma face_descriptor_text_no_newline : forall f r, face_in_range f = true ->
  (r = [] \/ r = [carriage_return]) -> ~ In newline (face_descriptor_text f ++ r).
Proof.
  intros [[a b] c] r H Hr. destruct (face_range a b c H) as (Ha & Hb & Hc).
  rewrite face_descriptor_text_app. apply no_char_not_in.
  repeat first [ rewrite no_char_app | rewrite no_char_cons
               | rewrite no_char_decimal by (lia || reflexivity) ].
  destruct Hr as [-> | ->]; reflexivity.
Qed.

Section OldLines.
Variable ff : list ascii -> option Z * nat.

Lemma wl_read_face_descriptor : forall f r w, face_in_range f = true ->
  (r = [] \/ r = [carriage_return]) ->
  WavefrontLoader.read_line ff (face_descriptor_text f ++ r) w =
  mk_wavefront (positions w) (faces w ++ [f]).
Proof.
  intros [[a b] c] r w H Hr. destruct (face_range a b c H) as (Ha & Hb & Hc).
  rewrite face_descriptor_text_app. unfold WavefrontLoader.read_line. rewrite !get_next_same.
  rewrite get_next_single by reflexivity. rewrite sv_f_v, sv_f_f.
  rewrite ?get_next_same, get_next_token1 by tok_side. rewrite ?get_next_same, get_next_token1 by tok_side.
  destruct Hr as [-> | ->]; [rewrite app_nil_r|].
  - rewrite ?get_next_same, get_next_last1 by tok_side. rewrite !convert_old_decimal0 by lia. reflexivity.
  - rewrite ?get_next_same, get_next_last1 by tok_side. rewrite !convert_old_decimal0 by lia.
    rewrite convert_old_decimal by (lia || reflexivity). reflexivity.
Qed.

Lemma wl_read_face_text : forall t w, triangle_in_range t = true ->
  WavefrontLoader.read_line ff (face_text t) w =
  mk_wavefront (positions w)
    (faces w ++ [match t with (a, b, c) => (position a, position b, position c) end]).
Proof.
  intros [[a b] c] w H. destruct (triangle_range a b c H) as (Ha & Hb & Hc).
  rewrite <- (app_nil_r (face_text _)), face_text_app, app_nil_r.
  unfold WavefrontLoader.read_line. rewrite !get_next_same.
  rewrite get_next_single by reflexivity. rewrite sv_f_v, sv_f_f.
  rewrite ?get_next_same, get_next_token1 by vtok_side. rewrite ?get_next_same, get_next_token1 by vtok_side.
  rewrite ?get_next_same, get_next_last1 by vtok_side.
  destruct (vertex_range a Ha) as (Pa & _), (vertex_range b Hb) as (Pb & _),
    (vertex_range c Hc) as (Pc & _).
  unfold vertex_text. rewrite !convert_old_decimal by (lia || reflexivity). reflexivity.
Qed.

End OldLines.

(** ** Whole files *)

Lemma faces_text_cons : forall eol t ts,
  faces_text eol (t :: ts) = (face_text t ++ eol) ++ faces_text eol ts.
Proof. reflexivity. Qed.

Lemma face_descriptors_text_cons : forall eol f fs,
  face_descriptors_text eol (f :: fs) = (face_descriptor_text f ++ eol) ++ face_descriptors_text eol fs.
Proof. reflexivity. Qed.

Lemma eol_split : forall eol, (eol = [newline] \/ eol = [carriage_return; newline]) ->
  exists r, (r = [] \/ r = [carriage_return]) /\ eol = r ++ [newline].
Proof. intros eol [-> | ->]; [exists []|exists [carriage_return]]; auto. Qed.

Lemma face_text_not_nil : forall t r, face_text t ++ r <> [].
Proof. intros [[a b] c] r. rewrite face_text_app. discriminate. Qed.

Lemma face_descriptor_text_not_nil : forall f r, face_descriptor_text f ++ r <> [].
Proof. intros [[a b] c] r. rewrite face_descriptor_text_app. discriminate. Qed.

Section Files.
Variable ff : list ascii -> option Z * nat.

Lemma wol_load_faces_text : forall ts o, forallb triangle_in_range ts = true ->
  WavefrontObjectLoader.load_lines ff (S (length (faces_text [newline] ts))) (faces_text [newline] ts) o =
  Some (WavefrontObjectLoader.mk_wavefront_object (WavefrontObjectLoader.positions o) (WavefrontObjectLoader.normals o) (WavefrontObjectLoader.uvws o)
          (WavefrontObjectLoader.faces o ++ ts)).
Proof.
  induction ts as [|t ts IH]; intros o H.
  - destruct o. cbn. now rewrite app_nil_r.
  - cbn [forallb] in H. apply andb_prop in H as [Ht H].
    rewrite faces_text_cons, <- app_assoc. cbn [app].
    rewrite wol_step.
    + rewrite wol_read_face_text by assumption. rewrite IH by assumption.
      cbn [WavefrontObjectLoader.positions WavefrontObjectLoader.normals WavefrontObjectLoader.uvws WavefrontObjectLoader.faces]. now rewrite <- app_assoc.
    + rewrite <- (app_nil_r (face_text t)). apply face_text_not_nil.
    + rewrite <- (app_nil_r (face_text t)). apply face_text_no_newline; auto.
Qed.

Lemma wl_load_face_descriptors : forall eol fs w,
  (eol = [newline] \/ eol = [carriage_return; newline]) ->
  forallb face_in_range fs = true ->
  WavefrontLoader.load_lines ff (S (length (face_descriptors_text eol fs))) (face_descriptors_text eol fs) w =
  mk_wavefront (positions w) (faces w ++ fs).
Proof.
  intros eol fs w Heol. destruct (eol_split eol Heol) as (r & Hr & ->).
  revert w. induction fs as [|f fs IH]; intros w H.
  - destruct w. cbn. now rewrite app_nil_r.
  - cbn [forallb] in H. apply andb_prop in H as [Hf H].
    rewrite face_descriptors_text_cons, !app_assoc, <- (app_assoc _ [newline]). cbn [app].
    rewrite wl_step.
    + rewrite wl_read_face_descriptor by assumption. rewrite IH by assumption.
      cbn [positions faces]. now rewrite <- app_assoc.
    + apply face_descriptor_text_not_nil.
    + apply face_descriptor_text_no_newline; auto.
Qed.

Lemma wl_load_faces_text : forall ts w, forallb triangle_in_range ts = true ->
  WavefrontLoader.load_lines ff (S (length (faces_text [newline] ts))) (faces_text [newline] ts) w =
  mk_wavefront (positions w)
    (faces w ++ map (fun t => match t with (a, b, c) => (position a, position b, position c) end) ts).
Proof.
  induction ts as [|t ts IH]; intros w H.
  - destruct w. cbn. now rewrite app_nil_r.
  - cbn [forallb] in H. apply andb_prop in H as [Ht H].
    rewrite faces_text_cons, <- app_assoc. cbn [app].
    rewrite wl_step.
    + rewrite wl_read_face_text by assumption. rewrite IH by assumption.
      cbn [positions faces map]. now rewrite <- app_assoc.
    + rewrite <- (app_nil_r (face_text t)). apply face_text_not_nil.
    + rewrite <- (app_nil_r (face_text t)). apply face_text_no_newline; auto.
Qed.

End Files.

Lemma unpack_decimal : forall p, 0 <= p < U32.modulus ->
  WavefrontObjectLoader.unpack_face_vertex (decimal_string p) = Some (mk_wavefront_vertex p 0 0).
Proof.
  intros p Hp. rewrite <- (app_nil_r (decimal_string p)).
  rewrite unpack_position_only by auto. reflexivity.
Qed.

Lemma unpack_decimal_cr : forall p, 0 <= p < U32.modulus ->
  WavefrontObjectLoader.unpack_face_vertex (decimal_string p ++ [carriage_return]) = None.
Proof. intros p Hp. rewrite unpack_position_only by auto. reflexivity. Qed.

Lemma eol_crlf : forall (x r : list ascii) a b, (x ++ [a; b]) ++ r = (x ++ [a]) ++ b :: r.
Proof. intros. rewrite <- !app_assoc. reflexivity. Qed.

Section Files2.
Variable ff : list ascii -> option Z * nat.

Lemma wol_read_face_descriptor : forall f r o, face_in_range f = true ->
  (r = [] \/ r = [carriage_return]) ->
  WavefrontObjectLoader.read_line ff (face_descriptor_text f ++ r) o =
  if Nat.eqb (length r) 0
  then Some (WavefrontObjectLoader.mk_wavefront_object (WavefrontObjectLoader.positions o) (WavefrontObjectLoader.normals o) (WavefrontObjectLoader.uvws o)
               (WavefrontObjectLoader.faces o ++ [position_only f]))
  else None.
Proof.
  intros [[a b] c] r o H Hr. destruct (face_range a b c H) as (Ha & Hb & Hc).
  rewrite face_descriptor_text_app. unfold WavefrontObjectLoader.read_line.
  rewrite get_next_single by reflexivity.
  rewrite sv_f_v, sv_f_vn, sv_f_vt, sv_f_f. unfold WavefrontObjectLoader.read_triangle.
  rewrite get_next_token1 by tok_side. rewrite unpack_decimal by lia.
  rewrite get_next_token1 by tok_side. rewrite unpack_decimal by lia.
  destruct Hr as [-> | ->]; [rewrite app_nil_r|].
  - rewrite get_next_last1 by tok_side. rewrite unpack_decimal by lia. reflexivity.
  - rewrite get_next_last1 by tok_side. rewrite unpack_decimal_cr by lia. reflexivity.
Qed.

Lemma wol_load_face_descriptors : forall fs o, forallb face_in_range fs = true ->
  WavefrontObjectLoader.load_lines ff (S (length (face_descriptors_text [newline] fs)))
    (face_descriptors_text [newline] fs) o =
  Some (WavefrontObjectLoader.mk_wavefront_object (WavefrontObjectLoader.positions o) (WavefrontObjectLoader.normals o) (WavefrontObjectLoader.uvws o)
          (WavefrontObjectLoader.faces o ++ map position_only fs)).
Proof.
  induction fs as [|f fs IH]; intros o H.
  - destruct o. cbn. now rewrite app_nil_r.
  - cbn [forallb] in H. apply andb_prop in H as [Hf H].
    rewrite face_descriptors_text_cons, <- app_assoc. cbn [app].
    rewrite <- (app_nil_r (face_descriptor_text f)) at 1 2.
    rewrite wol_step.
    + rewrite wol_read_face_descriptor by auto. cbn [length Nat.eqb].
      rewrite IH by assumption.
      cbn [WavefrontObjectLoader.positions WavefrontObjectLoader.normals WavefrontObjectLoader.uvws WavefrontObjectLoader.faces map]. now rewrite <- app_assoc.
    + apply face_descriptor_text_not_nil.
    + apply face_descriptor_text_no_newline; auto.
Qed.

Lemma wol_skip_line : forall line o,
  existsb (string_view_eqb (fst (WavefrontObjectLoader.get_next space line)))
    [["v"%char]; ["v"%char; "n"%char]; ["v"%char; "t"%char]; ["f"%char]] = false ->
  WavefrontObjectLoader.read_line ff line o = Some o.
Proof.
  intros line o H. unfold WavefrontObjectLoader.read_line.
  destruct (WavefrontObjectLoader.get_next space line) as [command it]. cbn [fst existsb] in H.
  repeat rewrite orb_false_iff in H. destruct H as (H1 & H2 & H3 & H4 & _).
  rewrite H1, H2, H3, H4. reflexivity.
Qed.

Lemma wl_skip_line : forall line w,
  existsb (string_view_eqb (fst (WavefrontLoader.get_next space line))) [["v"%char]; ["f"%char]] = false ->
  WavefrontLoader.read_line ff line w = w.
Proof.
  intros line w H. unfold WavefrontLoader.read_line.
  destruct (WavefrontLoader.get_next space line) as [type it]. cbn [fst existsb] in H.
  repeat rewrite orb_false_iff in H. destruct H as (H1 & H2 & _).
  rewrite H1, H2. reflexivity.
Qed.

End Files2.

(** * Extra properties *)

(** [get_next] of both loaders skips leading delimiters and returns the token
    up to the next delimiter, leaving the iterator on it. *)
Theorem get_next_splits_token : forall d k tok rest,
  tok <> [] -> ~ In d tok -> (match rest with [] => True | c :: _ => c = d end) ->
  WavefrontObjectLoader.get_next d (repeat d k ++ tok ++ rest) = (tok, rest) /\
  WavefrontLoader.get_next d (repeat d k ++ tok ++ rest) = (tok, rest).
Proof.
  intros d k tok rest H1 H2 H3. rewrite get_next_same.
  pose proof (get_next_token d k tok rest H1 H2 H3). auto.
Qed.

Lemma get_next_splits_token_witness :
  WavefrontObjectLoader.get_next space ([space; space] ++ ["1"%char; "2"%char] ++ [space; "3"%char]) =
    (["1"%char; "2"%char], [space; "3"%char]) /\
  WavefrontLoader.get_next space ([space; space] ++ ["1"%char; "2"%char] ++ [space; "3"%char]) =
    (["1"%char; "2"%char], [space; "3"%char]).
Proof.
  apply (get_next_splits_token space 2 ["1"%char; "2"%char] [space; "3"%char]).
  - discriminate.
  - apply no_char_not_in. reflexivity.
  - reflexivity.
Defined.

(** The two copies of [get_next] agree on every input. *)
Theorem get_next_copies_agree : forall d s, WavefrontLoader.get_next d s = WavefrontObjectLoader.get_next d s.
Proof. exact get_next_same. Qed.

(** [get_next] returns an empty token exactly when the rest of the input is
    only delimiters. *)
Theorem get_next_empty_iff_delimiters : forall d s,
  fst (WavefrontObjectLoader.get_next d s) = [] <-> forallb (fun c => Ascii.eqb c d) s = true.
Proof. exact get_next_empty. Qed.

(** [convert<unsigned int>] of the object loader reads back the decimal
    text of a natural number; above [2^32 - 1] it gives 0. *)
Theorem object_convert_decimal : forall n, 0 <= n ->
  WavefrontObjectLoader.convert from_chars_uint (decimal_string n) =
  Some (if n <? U32.modulus then n else 0).
Proof. exact convert_decimal. Qed.

Lemma object_convert_decimal_witness :
  0 <= 4294967296 /\
  WavefrontObjectLoader.convert from_chars_uint (decimal_string 4294967296) =
  Some (if 4294967296 <? U32.modulus then 4294967296 else 0).
Proof. split; [lia | apply object_convert_decimal; lia]. Defined.

(** [convert<unsigned int>] of the object loader terminates ([None]) on any
    text with a character that is not a decimal digit. *)
Theorem object_convert_rejects_non_digit : forall s,
  existsb (fun c => negb (is_digit c)) s = true -> WavefrontObjectLoader.convert from_chars_uint s = None.
Proof. exact convert_non_digit. Qed.

Lemma object_convert_rejects_non_digit_witness :
  existsb (fun c => negb (is_digit c)) ["1"%char; carriage_return] = true /\
  WavefrontObjectLoader.convert from_chars_uint ["1"%char; carriage_return] = None.
Proof. split; [reflexivity | apply object_convert_rejects_non_digit; reflexivity]. Defined.

(** [convert<unsigned int>] of [load_wavefront] reads the leading decimal
    number and ignores whatever follows it. *)
Theorem wavefront_convert_prefix : forall n r, 0 <= n < U32.modulus ->
  (match r with [] => True | c :: _ => is_digit c = false end) ->
  WavefrontLoader.convert from_chars_uint (decimal_string n ++ r) = n.
Proof. exact convert_old_decimal. Qed.

Lemma wavefront_convert_prefix_witness :
  WavefrontLoader.convert from_chars_uint (decimal_string 12 ++ [slash; "7"%char]) = 12.
Proof. apply wavefront_convert_prefix; [unfold U32.modulus; lia | reflexivity]. Defined.

(** [unpack_face_vertex] on [p/t/n] gives position [p], normal [n] and
    texture coordinate [t]. *)
Theorem unpack_face_vertex_full : forall p t n,
  0 <= p < U32.modulus -> 0 <= t < U32.modulus -> 0 <= n < U32.modulus ->
  WavefrontObjectLoader.unpack_face_vertex
    (decimal_string p ++ slash :: decimal_string t ++ slash :: decimal_string n) =
  Some (mk_wavefront_vertex p n t).
Proof. exact unpack_full. Qed.

Lemma unpack_face_vertex_full_witness :
  WavefrontObjectLoader.unpack_face_vertex
    (decimal_string 1 ++ slash :: decimal_string 2 ++ slash :: decimal_string 3) =
  Some (mk_wavefront_vertex 1 3 2).
Proof. apply unpack_face_vertex_full; unfold U32.modulus; lia. Defined.

(** [unpack_face_vertex] on [p//n] skips the empty field: [n] becomes the
    texture coordinate and the normal is 0. *)
Theorem unpack_face_vertex_empty_texture : forall p n,
  0 <= p < U32.modulus -> 0 <= n < U32.modulus ->
  WavefrontObjectLoader.unpack_face_vertex (decimal_string p ++ slash :: slash :: decimal_string n) =
  Some (mk_wavefront_vertex p 0 n).
Proof. exact unpack_no_texture. Qed.

Lemma unpack_face_vertex_empty_texture_witness :
  WavefrontObjectLoader.unpack_face_vertex (decimal_string 1 ++ slash :: slash :: decimal_string 3) =
  Some (mk_wavefront_vertex 1 0 3).
Proof. apply unpack_face_vertex_empty_texture; unfold U32.modulus; lia. Defined.

(** [unpack_face_vertex] on a bare [p] gives position [p] with normal and
    texture coordinate 0. *)
Theorem unpack_face_vertex_position_only : forall p, 0 <= p < U32.modulus ->
  WavefrontObjectLoader.unpack_face_vertex (decimal_string p) = Some (mk_wavefront_vertex p 0 0).
Proof. exact unpack_decimal. Qed.

Lemma unpack_face_vertex_position_only_witness :
  WavefrontObjectLoader.unpack_face_vertex (decimal_string 7) = Some (mk_wavefront_vertex 7 0 0).
Proof. apply unpack_face_vertex_position_only; unfold U32.modulus; lia. Defined.

(** [unpack_face_vertex] terminates on a face vertex with a fourth field. *)
Theorem unpack_face_vertex_four_fields : forall p t n q,
  0 <= p < U32.modulus -> 0 <= t < U32.modulus -> 0 <= n < U32.modulus -> 0 <= q ->
  WavefrontObjectLoader.unpack_face_vertex
    (decimal_string p ++ slash :: decimal_string t ++ slash :: decimal_string n ++
     slash :: decimal_string q) = None.
Proof. exact unpack_four_fields. Qed.

Lemma unpack_face_vertex_four_fields_witness :
  WavefrontObjectLoader.unpack_face_vertex
    (decimal_string 1 ++ slash :: decimal_string 2 ++ slash :: decimal_string 3 ++
     slash :: decimal_string 4) = None.
Proof. apply unpack_face_vertex_four_fields; unfold U32.modulus; lia. Defined.

(** [load_wavefront_object] reads back the faces of an object written as
    [f p/t/n p/t/n p/t/n] lines ended by a line feed. *)
Theorem load_wavefront_object_faces_round_trip : forall ff ts,
  forallb triangle_in_range ts = true ->
  WavefrontObjectLoader.load_wavefront_object ff (faces_text [newline] ts) =
  Some (WavefrontObjectLoader.mk_wavefront_object [] [] [] ts).
Proof.
  intros ff ts H. unfold WavefrontObjectLoader.load_wavefront_object.
  rewrite wol_load_faces_text by assumption. reflexivity.
Qed.

Lemma load_wavefront_object_faces_round_trip_witness :
  forallb triangle_in_range sample_triangles = true /\
  WavefrontObjectLoader.load_wavefront_object no_float (faces_text [newline] sample_triangles) =
  Some (WavefrontObjectLoader.mk_wavefront_object [] [] [] sample_triangles).
Proof.
  split; [vm_compute; reflexivity|].
  apply load_wavefront_object_faces_round_trip. vm_compute. reflexivity.
Defined.

(** [load_wavefront_object] terminates on a file whose first line is a face
    line ([f p/t/n p/t/n p/t/n] or [f a b c]) ended by a carriage return and
    a line feed, whatever follows that line. *)
Theorem load_wavefront_object_crlf_faces : forall ff t f rest,
  triangle_in_range t = true -> face_in_range f = true ->
  WavefrontObjectLoader.load_wavefront_object ff
    (face_text t ++ [carriage_return; newline] ++ rest) = None /\
  WavefrontObjectLoader.load_wavefront_object ff
    (face_descriptor_text f ++ [carriage_return; newline] ++ rest) = None.
Proof.
  intros ff t f rest Ht Hf.
  unfold WavefrontObjectLoader.load_wavefront_object. split.
  - rewrite app_assoc, eol_crlf, wol_step.
    + now rewrite wol_read_face_text_cr.
    + apply face_text_not_nil.
    + apply face_text_no_newline; auto.
  - rewrite app_assoc, eol_crlf, wol_step.
    + now rewrite wol_read_face_descriptor by auto.
    + apply face_descriptor_text_not_nil.
    + apply face_descriptor_text_no_newline; auto.
Qed.

Lemma load_wavefront_object_crlf_faces_witness :
  WavefrontObjectLoader.load_wavefront_object no_float
    (face_text (mk_wavefront_vertex 1 1 1, mk_wavefront_vertex 2 1 2, mk_wavefront_vertex 3 1 3) ++
     [carriage_return; newline] ++ faces_text [newline] sample_triangles) = None /\
  WavefrontObjectLoader.load_wavefront_object no_float
    (face_descriptor_text (1, 2, 3) ++ [carriage_return; newline] ++
     faces_text [newline] sample_triangles) = None.
Proof.
  apply load_wavefront_object_crlf_faces; vm_compute; reflexivity.
Defined.

(** [load_wavefront_object] reads [f a b c] lines (position indices only)
    as face vertices with normal and texture coordinate 0. *)
Theorem load_wavefront_object_position_faces : forall ff fs,
  forallb face_in_range fs = true ->
  WavefrontObjectLoader.load_wavefront_object ff (face_descriptors_text [newline] fs) =
  Some (WavefrontObjectLoader.mk_wavefront_object [] [] [] (map position_only fs)).
Proof.
  intros ff fs H. unfold WavefrontObjectLoader.load_wavefront_object.
  rewrite wol_load_face_descriptors by assumption. reflexivity.
Qed.

Lemma load_wavefront_object_position_faces_witness :
  forallb face_in_range sample_faces = true /\
  WavefrontObjectLoader.load_wavefront_object no_float (face_descriptors_text [newline] sample_faces) =
  Some (WavefrontObjectLoader.mk_wavefront_object [] [] [] (map position_only sample_faces)).
Proof.
  split; [vm_compute; reflexivity|].
  apply load_wavefront_object_position_faces. vm_compute. reflexivity.
Defined.

(** [load_wavefront] reads back the faces written as [f a b c] lines, ended
    by a line feed or by a carriage return and a line feed. *)
Theorem load_wavefront_faces_round_trip : forall ff eol fs,
  (eol = [newline] \/ eol = [carriage_return; newline]) ->
  forallb face_in_range fs = true ->
  WavefrontLoader.load_wavefront ff (face_descriptors_text eol fs) = mk_wavefront [] fs.
Proof.
  intros ff eol fs He H. unfold WavefrontLoader.load_wavefront.
  rewrite wl_load_face_descriptors by assumption. reflexivity.
Qed.

Lemma load_wavefront_faces_round_trip_witness :
  WavefrontLoader.load_wavefront no_float (face_descriptors_text [carriage_return; newline] sample_faces) =
  mk_wavefront [] sample_faces.
Proof. apply load_wavefront_faces_round_trip; [right; reflexivity | vm_compute; reflexivity]. Defined.

(** [load_wavefront] reads the faces of [f p/t/n ...] lines as their
    position indices. *)
Theorem load_wavefront_reads_positions_of_faces : forall ff ts,
  forallb triangle_in_range ts = true ->
  WavefrontLoader.load_wavefront ff (faces_text [newline] ts) =
  mk_wavefront []
    (map (fun t => match t with (a, b, c) => (position a, position b, position c) end) ts).
Proof.
  intros ff ts H. unfold WavefrontLoader.load_wavefront.
  rewrite wl_load_faces_text by assumption. reflexivity.
Qed.

Lemma load_wavefront_reads_positions_of_faces_witness :
  WavefrontLoader.load_wavefront no_float (faces_text [newline] sample_triangles) =
  mk_wavefront [] [(1, 2, 3); (3, 4, 1)].
Proof. apply load_wavefront_reads_positions_of_faces. vm_compute. reflexivity. Defined.

(** [load_wavefront_object] skips a line whose command is not [v], [vn],
    [vt] or [f], blank lines included. *)
Theorem load_wavefront_object_skips_other_lines : forall ff line rest,
  ~ In newline line ->
  existsb (string_view_eqb (fst (WavefrontObjectLoader.get_next space line)))
    [["v"%char]; ["v"%char; "n"%char]; ["v"%char; "t"%char]; ["f"%char]] = false ->
  WavefrontObjectLoader.load_wavefront_object ff (line ++ newline :: rest) = WavefrontObjectLoader.load_wavefront_object ff rest.
Proof.
  intros ff line rest Hn Hc. unfold WavefrontObjectLoader.load_wavefront_object.
  destruct line as [|x l].
  - cbn [app length]. rewrite wol_newline. apply wol_fuel; lia.
  - rewrite wol_step by (discriminate || assumption).
    rewrite wol_skip_line by assumption. reflexivity.
Qed.

Lemma load_wavefront_object_skips_other_lines_witness :
  WavefrontObjectLoader.load_wavefront_object no_float (comment_line ++ newline :: faces_text [newline] sample_triangles) =
  WavefrontObjectLoader.load_wavefront_object no_float (faces_text [newline] sample_triangles).
Proof.
  apply load_wavefront_object_skips_other_lines.
  - apply no_char_not_in. reflexivity.
  - vm_compute. reflexivity.
Defined.

(** [load_wavefront] skips a line whose type is neither [v] nor [f]. *)
Theorem load_wavefront_skips_other_lines : forall ff line rest,
  line <> [] -> ~ In newline line ->
  existsb (string_view_eqb (fst (WavefrontLoader.get_next space line))) [["v"%char]; ["f"%char]] = false ->
  WavefrontLoader.load_wavefront ff (line ++ newline :: rest) = WavefrontLoader.load_wavefront ff rest.
Proof.
  intros ff line rest Hl Hn Hc. unfold WavefrontLoader.load_wavefront.
  rewrite wl_step by assumption. rewrite wl_skip_line by assumption. reflexivity.
Qed.

Lemma load_wavefront_skips_other_lines_witness :
  WavefrontLoader.load_wavefront no_float (["v"%char; "n"%char; space; "1"%char] ++ newline ::
                              face_descriptors_text [newline] sample_faces) =
  WavefrontLoader.load_wavefront no_float (face_descriptors_text [newline] sample_faces).
Proof.
  apply load_wavefront_skips_other_lines.
  - discriminate.
  - apply no_char_not_in. reflexivity.
  - vm_compute. reflexivity.
Defined.

Lemma convert_full : forall (ff : list ascii -> option Z * nat) s x,
  ff s = (Some x, length s) -> WavefrontObjectLoader.convert ff s = Some x.
Proof. intros ff s x H. unfold WavefrontObjectLoader.convert. rewrite H, Nat.eqb_refl. reflexivity. Qed.

Ltac sv_eval :=
  repeat match goal with
         | |- context [string_view_eqb ?a ?b] =>
             let r := eval vm_compute in (string_view_eqb a b) in
             match r with
             | true => change (string_view_eqb a b) with true
             | false => change (string_view_eqb a b) with false
             end
         end.

(** The [v], [vn] and [vt] lines of [load_wavefront_object] append their
    three numbers to the positions, normals and texture coordinates. *)
Theorem read_line_vector_commands : forall ff tx ty tz x y z o,
  tx <> [] -> ty <> [] -> tz <> [] ->
  ~ In space tx -> ~ In space ty -> ~ In space tz ->
  ff tx = (Some x, length tx) -> ff ty = (Some y, length ty) -> ff tz = (Some z, length tz) ->
  WavefrontObjectLoader.read_line ff (["v"%char] ++ space :: tx ++ space :: ty ++ space :: tz) o =
    Some (WavefrontObjectLoader.mk_wavefront_object (WavefrontObjectLoader.positions o ++ [(x, y, z)]) (WavefrontObjectLoader.normals o)
            (WavefrontObjectLoader.uvws o) (WavefrontObjectLoader.faces o)) /\
  WavefrontObjectLoader.read_line ff (["v"%char; "n"%char] ++ space :: tx ++ space :: ty ++ space :: tz) o =
    Some (WavefrontObjectLoader.mk_wavefront_object (WavefrontObjectLoader.positions o) (WavefrontObjectLoader.normals o ++ [(x, y, z)])
            (WavefrontObjectLoader.uvws o) (WavefrontObjectLoader.faces o)) /\
  WavefrontObjectLoader.read_line ff (["v"%char; "t"%char] ++ space :: tx ++ space :: ty ++ space :: tz) o =
    Some (WavefrontObjectLoader.mk_wavefront_object (WavefrontObjectLoader.positions o) (WavefrontObjectLoader.normals o)
            (WavefrontObjectLoader.uvws o ++ [(x, y, z)]) (WavefrontObjectLoader.faces o)).
Proof.
  intros ff tx ty tz x y z o Nx Ny Nz Sx Sy Sz Fx Fy Fz.
  assert (V : WavefrontObjectLoader.read_vector3 ff (space :: tx ++ space :: ty ++ space :: tz) = Some (x, y, z)).
  { unfold WavefrontObjectLoader.read_vector3.
    rewrite get_next_token1 by tok_side. rewrite (convert_full ff tx x Fx).
    rewrite get_next_token1 by tok_side. rewrite (convert_full ff ty y Fy).
    rewrite get_next_last1 by tok_side. rewrite (convert_full ff tz z Fz).
    reflexivity. }
  unfold WavefrontObjectLoader.read_line.
  repeat split; rewrite get_next_token0 by tok_side; sv_eval; rewrite V; reflexivity.
Qed.

Lemma read_line_vector_commands_witness :
  WavefrontObjectLoader.read_line length_float
    (["v"%char; "n"%char] ++ space :: ["1"%char] ++ space :: ["2"%char; "5"%char] ++
     space :: ["3"%char])
    (WavefrontObjectLoader.mk_wavefront_object [] [] [] []) =
  Some (WavefrontObjectLoader.mk_wavefront_object [] [(1, 2, 1)] [] []).
Proof.
  apply (read_line_vector_commands length_float ["1"%char] ["2"%char; "5"%char] ["3"%char] 1 2 1
           (WavefrontObjectLoader.mk_wavefront_object [] [] [] []));
    first [discriminate | (apply no_char_not_in; reflexivity) | reflexivity].
Defined.

(** [reverse] of a barrier made by [transition] is the transition back, and
    reversing twice restores the barrier. *)
Theorem reverse_of_transition : forall r before after b,
  transition r before after = Ok b ->
  reverse b = transition r after before /\
  (forall b', reverse b = Ok b' -> reverse b' = Ok b).
Proof.
  intros r before after b H. unfold transition in H.
  destruct (Z.eqb before after) eqn:E; [discriminate|]. injection H as <-.
  split.
  - unfold reverse, transition. cbn [barrier_Type]. rewrite (Z.eqb_sym after before), E. reflexivity.
  - intros b' H. unfold reverse in H. cbn [barrier_Type] in H. injection H as <-.
    reflexivity.
Qed.

Lemma reverse_of_transition_witness :
  reverse (transition_prototype depth_buffer D3D12_RESOURCE_STATE_COMMON
             D3D12_RESOURCE_STATE_DEPTH_WRITE) =
  transition depth_buffer D3D12_RESOURCE_STATE_DEPTH_WRITE D3D12_RESOURCE_STATE_COMMON.
Proof.
  exact (proj1 (reverse_of_transition depth_buffer D3D12_RESOURCE_STATE_COMMON
                  D3D12_RESOURCE_STATE_DEPTH_WRITE _ eq_refl)).
Defined.

(** Offsetting a descriptor handle twice by the same increment is one offset
    by the sum of the indices, in [std::size_t] arithmetic. *)
Theorem offset_compose : forall handle size i j,
  offset (offset handle size i) size j = offset handle size (U64.add i j).
Proof.
  intros h s i j. unfold offset, U64.add, U64.wrap.
  assert (M : U64.modulus <> 0) by (unfold U64.modulus; lia).
  set (N := U64.modulus) in *.
  rewrite (Z.mul_mod_idemp_l (i + j) s N M), (Z.add_mod_idemp_r h ((i + j) * s) N M).
  rewrite (Z.add_mod_idemp_l (h + (i * s) mod N) ((j * s) mod N) N M).
  rewrite (Z.add_mod_idemp_r (h + (i * s) mod N) (j * s) N M).
  replace (h + (i * s) mod N + j * s) with (h + j * s + (i * s) mod N) by ring.
  rewrite (Z.add_mod_idemp_r (h + j * s) (i * s) N M).
  f_equal. ring.
Qed.

(** Within the 64-bit address range, [offset handle size i] is
    [handle + i * size], so distinct indices give distinct handles. *)
Theorem offset_slots_distinct : forall handle size i j,
  0 <= handle -> 0 < size -> 0 <= i -> 0 <= j ->
  handle + i * size < U64.modulus -> handle + j * size < U64.modulus ->
  offset handle size i = handle + i * size /\
  (offset handle size i = offset handle size j -> i = j).
Proof.
  intros h s i j Hh Hs Hi Hj Bi Bj.
  assert (E : forall k, 0 <= k -> h + k * s < U64.modulus -> offset h s k = h + k * s).
  { intros k Hk Bk. unfold offset, U64.add, U64.wrap.
    rewrite (Z.mod_small (k * s)) by nia. apply Z.mod_small. nia. }
  split; [now apply E|]. rewrite !E by assumption. nia.
Qed.

Lemma offset_slots_distinct_witness :
  offset 4096 32 1 = 4096 + 1 * 32 /\ (offset 4096 32 1 = offset 4096 32 2 -> 1 = 2).
Proof. apply offset_slots_distinct; unfold U64.modulus; lia. Defined.
